(** * ChebConv: the Chebyshev spectral graph convolution layer of DGL

    A shallow embedding of [python/dgl/nn/pytorch/conv/chebconv.py].

    The layer's [forward] is written against three collaborators that live
    elsewhere in DGL (the graph with its node frame and message passing,
    [laplacian_lambda_max], [broadcast_nodes]) and against PyTorch tensors.
    Tensors are lists of rows over a scalar type [F] that is a parameter of
    the whole development: the code is the same for every scalar arithmetic,
    and it is instantiated twice, with binary64 floats (executable) and with
    the real numbers (the exact arithmetic the layer's formulas are about).
    Shape errors, as PyTorch raises them, are part of the model: every tensor
    operation is fallible. *)

From Stdlib Require Import ZArith Reals Lra Floats.PrimFloat Uint63.
From stdpp Require Import gmap strings list.

Set Default Proof Using "Type".

(** ** Results and exceptions *)

Inductive exn : Type :=
| ShapeError            (* PyTorch: sizes of tensors do not match *)
| DGLError              (* DGL: a node feature with the wrong number of rows *)
| KeyError (k : string). (* a missing field of the node frame *)

Inductive result (A : Type) : Type :=
| Ok (a : A)
| Raise (e : exn).
Arguments Ok {A} a.
Arguments Raise {A} e.

Definition rbind {A B} (r : result A) (k : A → result B) : result B :=
  match r with Ok a => k a | Raise e => Raise e end.

Definition is_ok {A} (r : result A) : bool :=
  match r with Ok _ => true | Raise _ => false end.

(** What a call leaves behind besides its value: warnings, and the calls of
    the collaborators that claims speak about. *)
Inductive event : Type :=
| EvWarning (category msg : string)  (* dgl_warning(msg, category) *)
| EvEstimate                         (* laplacian_lambda_max(graph) was called *)
| EvUpdateAll.                       (* graph.update_all(...) was called *)

Definition is_warning (e : event) : bool :=
  match e with EvWarning _ _ => true | _ => false end.
Definition is_estimate (e : event) : bool :=
  match e with EvEstimate => true | _ => false end.
Definition is_update_all (e : event) : bool :=
  match e with EvUpdateAll => true | _ => false end.

(** ** Scalars

    The arithmetic PyTorch does on the entries of a float tensor. *)
Class Scalar (F : Type) : Type := {
  fadd : F → F → F;
  fsub : F → F → F;
  fmul : F → F → F;
  fdiv : F → F → F;
  fopp : F → F;
  fmax : F → F → F;          (* clamp(min=c) is [λ x, fmax x c] *)
  pow_neg_half : F → F;      (* th.pow(x, -0.5) *)
  of_nat : nat → F;          (* .float() of an integer, and integer literals *)
}.

(** ** Graphs

    What [forward] reads of a (batched) DGLGraph: the number of nodes, the
    directed edges as (source, destination) pairs and the number of nodes of
    each graph of the batch, in node order. *)
Record Graph : Type := {
  num_nodes : nat;
  edges : list (nat * nat);
  batch_num_nodes : list nat;
}.

Definition batch_size (g : Graph) : nat := length (batch_num_nodes g).

Definition wf_graph (g : Graph) : bool :=
  forallb (λ e, (e.1 <? num_nodes g) && (e.2 <? num_nodes g)) (edges g)
  && (list_sum (batch_num_nodes g) =? num_nodes g).

(** Modelled from the spec: [graph.in_degrees()], the per-node in-degree
    query of the graph. *)
Definition in_degree (g : Graph) (v : nat) : nat :=
  length (filter (λ e, e.2 = v) (edges g)).
Definition in_degrees (g : Graph) : list nat :=
  map (in_degree g) (seq 0 (num_nodes g)).

(** The sources of the edges that arrive at [v], in edge order. *)
Definition in_neighbours (g : Graph) (v : nat) : list nat :=
  map fst (filter (λ e, e.2 = v) (edges g)).

Section Tensors.
Context {F : Type} `{!Scalar F}.

(** A 2-D tensor is the list of its rows. *)
Definition mat : Type := list (list F).

(** The tensors [lambda_max] can be: 1-D ([dim() == 1]) or 2-D. *)
Inductive tensor : Type :=
| T1 (v : list F)
| T2 (m : mat).

(** [is_shape n m x]: [x] has [n] rows of [m] entries each. *)
Definition is_shape (n m : nat) (x : mat) : bool :=
  (length x =? n) && forallb (λ r, length r =? m) x.

(** *** Elementwise operations with PyTorch's broadcasting

    Along one dimension two sizes are compatible when they are equal or
    one of them is 1; the operand of size 1 is repeated. *)
Fixpoint mapM2 {A B C} (f : A → B → result C) (xs : list A) (ys : list B)
  : result (list C) :=
  match xs, ys with
  | x :: xs, y :: ys =>
      rbind (f x y) (λ z, rbind (mapM2 f xs ys) (λ zs, Ok (z :: zs)))
  | _, _ => Ok []
  end.

Definition bcast_dim {A B C} (f : A → B → result C) (xs : list A) (ys : list B)
  : result (list C) :=
  if length xs =? length ys then mapM2 f xs ys
  else match xs, ys with
       | _, [y] => mapM2 f xs (replicate (length xs) y)
       | [x], _ => mapM2 f (replicate (length ys) x) ys
       | _, _ => Raise ShapeError
       end.

Definition broadcast2 (op : F → F → F) (a b : mat) : result mat :=
  bcast_dim (bcast_dim (λ x y, Ok (op x y))) a b.

Definition t_mul : mat → mat → result mat := broadcast2 fmul.  (* a * b *)
Definition t_add : mat → mat → result mat := broadcast2 fadd.  (* a + b *)
Definition t_sub : mat → mat → result mat := broadcast2 fsub.  (* a - b *)

Definition t_map (f : F → F) (a : mat) : mat := map (map f) a.
Definition t_neg : mat → mat := t_map fopp.                     (* - a *)
Definition s_mul_l (c : F) : mat → mat := t_map (fmul c).       (* c * a *)
Definition s_mul_r (c : F) : mat → mat := t_map (λ x, fmul x c). (* a * c *)
Definition s_sub_r (c : F) : mat → mat := t_map (λ x, fsub x c). (* a - c *)
Definition s_div_l (c : F) : mat → mat := t_map (fdiv c).       (* c / a *)

(** th.cat((a, b), 1) *)
Definition th_cat1 (a b : mat) : result mat :=
  if length a =? length b then Ok (zip_with app a b) else Raise ShapeError.

(** t.unsqueeze(-1) on a 1-D tensor *)
Definition unsqueeze_last (v : list F) : mat := map (λ x, [x]) v.

(** *** nn.Linear

    [weight] has one row per output feature; [F.linear(x, weight, bias)]
    is [x @ weight.T + bias]. *)
Definition dot (r w : list F) : result F :=
  if length r =? length w
  then Ok (foldl fadd (of_nat 0) (zip_with fmul r w))
  else Raise ShapeError.

Definition add_bias (bias : option (list F)) (y : list F) : result (list F) :=
  match bias with
  | None => Ok y
  | Some b => if length y =? length b then Ok (zip_with fadd y b)
              else Raise ShapeError
  end.

Fixpoint mapM {A B} (f : A → result B) (xs : list A) : result (list B) :=
  match xs with
  | [] => Ok []
  | x :: xs => rbind (f x) (λ z, rbind (mapM f xs) (λ zs, Ok (z :: zs)))
  end.

Definition linear (weight : mat) (bias : option (list F)) (x : mat)
  : result mat :=
  mapM (λ r, rbind (mapM (dot r) weight) (add_bias bias)) x.
End Tensors.

Arguments mat F : clear implicits.
Arguments tensor F : clear implicits.

(** ** The world of a call

    The objects of the caller that [forward] can reach: the node frame of
    the graph ([graph.ndata]), the tensor passed as [feat], the parameters
    of [self.linear], and the trace of events. *)
Record World (F : Type) : Type := mkWorld {
  ndata : gmap string (mat F);
  feat_tensor : mat F;
  linear_weight : mat F;
  linear_bias : option (list F);
  trace : list event;
}.
Arguments mkWorld {F}.
Arguments ndata {F}.
Arguments feat_tensor {F}.
Arguments linear_weight {F}.
Arguments linear_bias {F}.
Arguments trace {F}.

Definition set_ndata {F} (nd : gmap string (mat F)) (w : World F) : World F :=
  mkWorld nd (feat_tensor w) (linear_weight w) (linear_bias w) (trace w).
Definition emit {F} (e : event) (w : World F) : World F :=
  mkWorld (ndata w) (feat_tensor w) (linear_weight w) (linear_bias w)
          (trace w ++ [e]).

(** What the environment supplies: the eigenvalue estimator, which returns
    the list of the largest eigenvalues of the graphs of the batch or raises
    ([None]), and the contents of freshly allocated, uninitialised memory. *)
Record Env (F : Type) : Type := mkEnv {
  laplacian_lambda_max : Graph → option (list F);
  uninitialized : nat → F;
}.
Arguments mkEnv {F}.
Arguments laplacian_lambda_max {F}.
Arguments uninitialized {F}.

(** The [lambda_max] argument of [forward]. *)
Inductive lambda_arg (F : Type) : Type :=
| LNone                       (* lambda_max=None, the default *)
| LList (l : list F)          (* a Python list of numbers *)
| LTensor (t : tensor F).     (* a tensor *)
Arguments LNone {F}.
Arguments LList {F} l.
Arguments LTensor {F} t.

(** The layer as [__init__] builds it. [self.linear] maps [_k * _in_feats]
    features to [_out_feats]; its parameters live in the world. *)
Record ChebConv (F : Type) : Type := mkChebConv {
  _k : nat;
  _in_feats : nat;
  _out_feats : nat;
  activation : option (F → F);
}.
Arguments mkChebConv {F}.
Arguments _k {F}.
Arguments _in_feats {F}.
Arguments _out_feats {F}.
Arguments activation {F}.

Section Layer.
Context {F : Type} `{!Scalar F}.

(** *** State and exceptions *)
Definition M (A : Type) : Type := World F → result A * World F.

Definition ret {A} (a : A) : M A := λ w, (Ok a, w).
Definition bind {A B} (k : A → M B) (m : M A) : M B :=
  λ w, match m w with
       | (Ok a, w') => k a w'
       | (Raise e, w') => (Raise e, w')
       end.
#[global] Instance M_ret : MRet M := @ret.
#[global] Instance M_bind : MBind M := @bind.
Definition lift {A} (r : result A) : M A := λ w, (r, w).
Definition gets {A} (f : World F → A) : M A := λ w, (Ok (f w), w).
Definition modify (f : World F → World F) : M unit := λ w, (Ok tt, f w).

(** *** The graph collaborator *)

(** Modelled from the spec: [graph.local_scope()], a scoped acquisition of
    the node frame: whatever the body writes into [graph.ndata] is released
    on every exit path, a raised exception included. *)
Definition local_scope {A} (body : M A) : M A :=
  λ w, let '(r, w') := body w in (r, set_ndata (ndata w) w').

(** Modelled from the spec: [graph.ndata[key] = x]; DGL refuses a feature
    that has not one row per node. *)
Definition ndata_set (g : Graph) (key : string) (x : mat F) : M unit :=
  if length x =? num_nodes g
  then modify (λ w, set_ndata (<[key := x]> (ndata w)) w)
  else lift (Raise DGLError).

(** Modelled from the spec: [graph.ndata.pop(key)]. *)
Definition ndata_pop (key : string) : M (mat F) :=
  λ w, match ndata w !! key with
       | Some x => (Ok x, set_ndata (delete key (ndata w)) w)
       | None => (Raise (KeyError key), w)
       end.

Definition ncols (x : mat F) : nat :=
  match x with [] => 0 | r :: _ => length r end.

(** The sum of the messages that arrive at one node; no message gives the
    zero row. *)
Definition sum_rows (width : nat) (msgs : list (list F)) : list F :=
  foldl (zip_with fadd) (replicate width (of_nat 0)) msgs.

(** Modelled from the spec: the message-passing primitive with the rules
    [fn.copy_u(h, m)] (every edge carries the [h] of its source) and
    [fn.sum(m, h)] (every node sums what arrives). *)
Definition copy_u_sum (g : Graph) (h : mat F) : mat F :=
  map (λ v, sum_rows (ncols h) (map (λ u, nth u h []) (in_neighbours g v)))
      (seq 0 (num_nodes g)).

(** Modelled from the spec:
    [graph.update_all(fn.copy_u(src, 'm'), fn.sum('m', out))], which reads
    the field [src] of the node frame and writes the sums into [out]. *)
Definition update_all (g : Graph) (src out : string) : M unit :=
  modify (emit EvUpdateAll);;
  nd ← gets ndata;
  match nd !! src with
  | Some h => ndata_set g out (copy_u_sum g h)
  | None => lift (Raise (KeyError src))
  end.

(** Modelled from the spec: [broadcast_nodes(graph, x)] replicates the row
    of each graph of the batch across the nodes of that graph; [x] has one
    row per graph. *)
Definition broadcast_nodes (g : Graph) (x : mat F) : result (mat F) :=
  if length x =? batch_size g
  then Ok (concat (zip_with (λ row n, replicate n row) x (batch_num_nodes g)))
  else Raise DGLError.

(** Modelled from the spec: [dgl_warning(msg, category)], a warning that
    does not abort the call. *)
Definition dgl_warning (msg category : string) : M unit :=
  modify (emit (EvWarning category msg)).

(** [th.Tensor(n)] with an integer [n]: a new 1-D tensor of [n] entries
    that are not initialised. *)
Definition th_Tensor_size (env : Env F) (n : nat) : tensor F :=
  T1 (map (uninitialized env) (seq 0 n)).

(** [th.Tensor(l)] with a list [l] of numbers: the 1-D tensor of them. *)
Definition th_Tensor_list (l : list F) : tensor F := T1 l.

(** *** ChebConv.forward *)

(** def unnLaplacian(feat, D_invsqrt, graph) *)
Definition unnLaplacian (feat D_invsqrt : mat F) (g : Graph) : M (mat F) :=
  x ← lift (t_mul feat D_invsqrt);
  ndata_set g "h" x;;
  update_all g "h" "h";;
  h ← ndata_pop "h";
  lift (t_mul h D_invsqrt).

(** th.pow(graph.in_degrees().float().clamp(min=1), -0.5).unsqueeze(-1) *)
Definition D_invsqrt_of (g : Graph) : mat F :=
  unsqueeze_last
    (map pow_neg_half
       (map (λ d, fmax d (of_nat 1)) (map of_nat (in_degrees g)))).

(** Lines 87-95: the default of [lambda_max]. *)
Definition default_lambda_max (env : Env F) (g : Graph) (lambda_max : lambda_arg F)
  : M (lambda_arg F) :=
  match lambda_max with
  | LNone =>
      modify (emit EvEstimate);;
      match laplacian_lambda_max env g with
      | Some l => ret (LList l)
      | None =>
          dgl_warning
            "Largest eigonvalue not found, using default value 2 for lambda_max"
            "RuntimeWarning";;
          ret (LTensor (th_Tensor_size env 2))
      end
  | _ => ret lambda_max
  end.

(** Lines 97-100: a list becomes a tensor, a 1-D tensor gets a trailing
    dimension. [None] cannot reach this point. *)
Definition normalize_lambda_max (lambda_max : lambda_arg F) : mat F :=
  let t := match lambda_max with
           | LList l => th_Tensor_list l
           | LTensor t => t
           | LNone => T1 []
           end in
  match t with
  | T1 v => unsqueeze_last v   (* (B,) to (B, 1) *)
  | T2 m => m
  end.

(** Lines 87-104: from the argument to [re_norm], of shape (N, 1). *)
Definition re_norm_of (env : Env F) (g : Graph) (lambda_max : lambda_arg F)
  : M (mat F) :=
  lambda_max ← default_lambda_max env g lambda_max;
  lambda_max ← lift (broadcast_nodes g (normalize_lambda_max lambda_max));
  ret (s_div_l (of_nat 2) lambda_max).

(** Lines 117-122: [n] iterations of the loop, [n] being the length of
    [range(2, self._k)]. *)
Fixpoint cheb_loop (g : Graph) (D_invsqrt re_norm : mat F) (n : nat)
    (Xt X_1 X_0 : mat F) : M (mat F) :=
  match n with
  | 0 => ret Xt
  | S n =>
      h ← unnLaplacian X_1 D_invsqrt g;
      a ← lift (t_mul (s_mul_l (fopp (of_nat 2)) re_norm) h);
      b ← lift (t_mul (s_mul_r (of_nat 2) X_1) (s_sub_r (of_nat 1) re_norm));
      c ← lift (t_add a b);
      X_i ← lift (t_sub c X_0);
      Xt ← lift (th_cat1 Xt X_i);
      cheb_loop g D_invsqrt re_norm n Xt X_i X_1
  end.

(** Lines 107-122: the concatenation [Xt] of the Chebyshev basis. When
    [self._k <= 1] the name [X_1] is never bound, and [range(2, self._k)] is
    empty: the loop is entered only from the branch that binds it. *)
Definition chebyshev_basis (k : nat) (g : Graph) (D_invsqrt re_norm feat : mat F)
  : M (mat F) :=
  let Xt := feat in
  let X_0 := feat in
  if 1 <? k then
    h ← unnLaplacian X_0 D_invsqrt g;
    a ← lift (t_mul (t_neg re_norm) h);
    b ← lift (t_mul X_0 (s_sub_r (of_nat 1) re_norm));
    X_1 ← lift (t_add a b);
    Xt ← lift (th_cat1 Xt X_1);
    cheb_loop g D_invsqrt re_norm (k - 2) Xt X_1 X_0
  else ret Xt.

(** Lines 84-129: the block under [with graph.local_scope():]. *)
Definition forward_body (self : ChebConv F) (env : Env F) (g : Graph)
    (lambda_max : lambda_arg F) : M (mat F) :=
  feat ← gets feat_tensor;
  let D_invsqrt := D_invsqrt_of g in
  re_norm ← re_norm_of env g lambda_max;
  Xt ← chebyshev_basis (_k self) g D_invsqrt re_norm feat;
  weight ← gets linear_weight;
  bias ← gets linear_bias;
  h ← lift (linear weight bias Xt);
  match activation self with
  | Some act => ret (t_map act h)
  | None => ret h
  end.

(** def forward(self, graph, feat, lambda_max=None) *)
Definition forward (self : ChebConv F) (env : Env F) (g : Graph)
    (lambda_max : lambda_arg F) : M (mat F) :=
  local_scope (forward_body self env g lambda_max).
End Layer.

(** ** The two scalar arithmetics *)

(** Binary64 floats. PyTorch evaluates [pow(x, -0.5)] as the reciprocal of
    the square root, and [clamp] lets a NaN through. *)
#[global] Instance float_scalar : Scalar float := {|
  fadd := PrimFloat.add;
  fsub := PrimFloat.sub;
  fmul := PrimFloat.mul;
  fdiv := PrimFloat.div;
  fopp := PrimFloat.opp;
  fmax := λ x c, if PrimFloat.ltb x c then c else x;
  pow_neg_half := λ x, PrimFloat.div 1%float (PrimFloat.sqrt x);
  of_nat := λ n, PrimFloat.of_uint63 (Uint63.of_Z (Z.of_nat n));
|}.

(** The real numbers. *)
#[global] Instance R_scalar : Scalar R := {|
  fadd := Rplus;
  fsub := Rminus;
  fmul := Rmult;
  fdiv := Rdiv;
  fopp := Ropp;
  fmax := Rmax;
  pow_neg_half := λ x, Rpower x (- (1 / 2));
  of_nat := INR;
|}.

(** ** Pure counterparts of the tensor operations

    What the fallible operations return on operands of the shapes that
    [forward] meets: a matrix against a column, a column against a matrix,
    and two matrices of one shape. A column (N, 1) is [unsqueeze_last v]. *)
Section Pure.
Context {F : Type} `{!Scalar F}.

Definition mat_col (op : F → F → F) (a : mat F) (v : list F) : mat F :=
  zip_with (λ r s, map (λ x, op x s) r) a v.
Definition col_mat (op : F → F → F) (v : list F) (a : mat F) : mat F :=
  zip_with (λ s r, map (op s) r) v a.
Definition mat_mat (op : F → F → F) (a b : mat F) : mat F :=
  zip_with (zip_with op) a b.

(** [shape n m x] is [is_shape n m x] as a proposition. *)
Definition shape (n m : nat) (x : mat F) : Prop :=
  length x = n ∧ Forall (λ r, length r = m) x.

Lemma is_shape_spec n m x : is_shape n m x = true ↔ shape n m x.
Proof.
  unfold is_shape, shape. rewrite andb_true_iff, Nat.eqb_eq, forallb_forall.
  rewrite Forall_forall. setoid_rewrite Nat.eqb_eq.
  setoid_rewrite <- list_elem_of_In. done.
Qed.

Lemma mapM2_ok {A B C} (f : A → B → result C) (g : A → B → C) xs ys :
  Forall2 (λ x y, f x y = Ok (g x y)) xs ys →
  mapM2 f xs ys = Ok (zip_with g xs ys).
Proof.
  induction 1 as [|x y xs ys Hxy _ IH]; simpl; [done|].
  by rewrite Hxy, IH.
Qed.

Lemma mapM2_replicate_r {A B C} (f : A → B → result C) (g : A → C) xs y :
  (∀ x, x ∈ xs → f x y = Ok (g x)) →
  mapM2 f xs (replicate (length xs) y) = Ok (map g xs).
Proof.
  induction xs as [|x xs IH]; intros Hf; simpl; [done|].
  rewrite Hf by left. rewrite IH; [done|].
  intros ? ?. apply Hf. by right.
Qed.

Lemma mapM2_replicate_l {A B C} (f : A → B → result C) (g : B → C) x ys :
  (∀ y, y ∈ ys → f x y = Ok (g y)) →
  mapM2 f (replicate (length ys) x) ys = Ok (map g ys).
Proof.
  induction ys as [|y ys IH]; intros Hf; simpl; [done|].
  rewrite Hf by left. rewrite IH; [done|].
  intros ? ?. apply Hf. by right.
Qed.

Lemma bcast_dim_same {A B C} (f : A → B → result C) xs ys :
  length xs = length ys → bcast_dim f xs ys = mapM2 f xs ys.
Proof. intros E. unfold bcast_dim. by rewrite E, Nat.eqb_refl. Qed.

Lemma bcast_dim_one_r {A B C} (f : A → B → result C) xs y :
  bcast_dim f xs [y] = mapM2 f xs (replicate (length xs) y).
Proof.
  unfold bcast_dim. destruct (length xs =? length [y]) eqn:E.
  - apply Nat.eqb_eq in E. by rewrite E.
  - by destruct xs as [|? [|? ?]].
Qed.

Lemma bcast_dim_one_l {A B C} (f : A → B → result C) x ys :
  bcast_dim f [x] ys = mapM2 f (replicate (length ys) x) ys.
Proof.
  unfold bcast_dim. destruct (length [x] =? length ys) eqn:E.
  - apply Nat.eqb_eq in E. by rewrite <- E.
  - destruct ys as [|? [|? ?]]; try done.
Qed.

Lemma broadcast2_mat_col op a v :
  length a = length v →
  broadcast2 op a (unsqueeze_last v) = Ok (mat_col op a v).
Proof.
  intros E. unfold broadcast2, unsqueeze_last, mat_col.
  rewrite bcast_dim_same by (by rewrite length_map).
  revert v E. induction a as [|r a IH]; intros [|s v] E; simplify_eq/=; [done|].
  rewrite bcast_dim_one_r.
  rewrite (mapM2_replicate_r _ (λ x, op x s)) by done. simpl.
  by rewrite IH.
Qed.

Lemma broadcast2_col_mat op v a :
  length v = length a →
  broadcast2 op (unsqueeze_last v) a = Ok (col_mat op v a).
Proof.
  intros E. unfold broadcast2, unsqueeze_last, col_mat.
  rewrite bcast_dim_same by (by rewrite length_map).
  revert a E. induction v as [|s v IH]; intros [|r a] E; simplify_eq/=; [done|].
  rewrite bcast_dim_one_l.
  rewrite (mapM2_replicate_l _ (op s)) by done. simpl.
  by rewrite IH.
Qed.

Lemma bcast_dim_zip (op : F → F → F) (r s : list F) :
  length r = length s →
  bcast_dim (λ x y, Ok (op x y)) r s = Ok (zip_with op r s).
Proof.
  intros E. rewrite bcast_dim_same by done.
  revert s E. induction r as [|x r IH]; intros [|y s] E; simplify_eq/=; [done|].
  by rewrite IH.
Qed.

Lemma broadcast2_mat_mat op n m a b :
  shape n m a → shape n m b →
  broadcast2 op a b = Ok (mat_mat op a b).
Proof.
  intros [La Ha] [Lb Hb]. unfold broadcast2, mat_mat.
  rewrite bcast_dim_same by congruence.
  assert (E : length a = length b) by congruence. clear La Lb.
  revert b Hb E. induction Ha as [|r a Hr Ha IH]; intros [|s b] Hb E;
    simplify_eq/=; [done|].
  apply Forall_cons in Hb as [Hs Hb].
  rewrite bcast_dim_zip by congruence. simpl.
  by rewrite IH.
Qed.

(** Shapes of the pure results. *)
Lemma shape_mat_col op n m a v :
  shape n m a → length v = n → shape n m (mat_col op a v).
Proof.
  intros [La Ha] Lv. split.
  - unfold mat_col. rewrite length_zip_with. lia.
  - unfold mat_col. clear La Lv. revert v.
    induction Ha as [|r a Hr Ha IH]; intros [|s v]; simpl; constructor; auto.
    by rewrite length_map.
Qed.

Lemma shape_col_mat op n m v a :
  length v = n → shape n m a → shape n m (col_mat op v a).
Proof.
  intros Lv [La Ha]. split.
  - unfold col_mat. rewrite length_zip_with. lia.
  - unfold col_mat. clear La Lv. revert v.
    induction Ha as [|r a Hr Ha IH]; intros [|s v]; simpl; constructor; auto.
    by rewrite length_map.
Qed.

Lemma shape_mat_mat op n m a b :
  shape n m a → shape n m b → shape n m (mat_mat op a b).
Proof.
  intros [La Ha] [Lb Hb]. split.
  - unfold mat_mat. rewrite length_zip_with. lia.
  - unfold mat_mat. clear La Lb. revert b Hb.
    induction Ha as [|r a Hr Ha IH]; intros [|s b] Hb; simpl; constructor.
    + apply Forall_cons in Hb as [Hs Hb]. rewrite length_zip_with. lia.
    + apply Forall_cons in Hb as [Hs Hb]. auto.
Qed.

Lemma shape_t_map f n m a : shape n m a → shape n m (t_map f a).
Proof.
  intros [La Ha]. split; unfold t_map.
  - by rewrite length_map.
  - apply Forall_map. eapply Forall_impl; [done|]. intros r Hr. simpl.
    by rewrite length_map.
Qed.

Lemma t_map_unsqueeze (f : F → F) (v : list F) :
  t_map f (unsqueeze_last v) = unsqueeze_last (map f v).
Proof.
  unfold t_map, unsqueeze_last. rewrite !map_map. done.
Qed.

Lemma shape_cat1 n m1 m2 a b :
  shape n m1 a → shape n m2 b → shape n (m1 + m2) (zip_with app a b).
Proof.
  intros [La Ha] [Lb Hb]. split.
  - rewrite length_zip_with. lia.
  - clear La Lb. revert b Hb.
    induction Ha as [|r a Hr Ha IH]; intros [|s b] Hb; simpl; constructor.
    + apply Forall_cons in Hb as [Hs Hb]. rewrite length_app. lia.
    + apply Forall_cons in Hb as [Hs Hb]. auto.
Qed.
End Pure.

(** ** What a Laplacian application returns and leaves behind *)
Section Laplacian.
Context {F : Type} `{!Scalar F}.
Implicit Types (g : Graph) (w : World F) (x : mat F) (dv : list F).

(** The value of [unnLaplacian(x, D_invsqrt, graph)] for the column
    [D_invsqrt = unsqueeze_last dv]. *)
Definition lap g dv x : mat F :=
  mat_col fmul (copy_u_sum g (mat_col fmul x dv)) dv.

(** The world after [n] Laplacian applications: the field [h] is gone
    from the node frame and [n] calls of [update_all] are on the trace. *)
Definition after_laps (n : nat) w : World F :=
  mkWorld (match n with 0 => ndata w | S _ => delete "h" (ndata w) end)
          (feat_tensor w) (linear_weight w) (linear_bias w)
          (trace w ++ replicate n EvUpdateAll).

Lemma after_laps_0 w : after_laps 0 w = w.
Proof. destruct w. unfold after_laps. simpl. by rewrite app_nil_r. Qed.

Lemma after_laps_S n w : after_laps 1 (after_laps n w) = after_laps (S n) w.
Proof.
  unfold after_laps. simpl. f_equal.
  - destruct n; [done|]. by rewrite delete_delete_eq.
  - rewrite <- app_assoc. f_equal.
    change [EvUpdateAll] with (replicate 1 EvUpdateAll).
    rewrite <- replicate_add. by rewrite Nat.add_1_r.
Qed.

Lemma after_laps_S' n w : after_laps n (after_laps 1 w) = after_laps (S n) w.
Proof.
  unfold after_laps. simpl. f_equal.
  - destruct n; [done|]. by rewrite delete_delete_eq.
  - by rewrite <- app_assoc.
Qed.

Lemma length_copy_u_sum g x : length (copy_u_sum g x) = num_nodes g.
Proof. unfold copy_u_sum. by rewrite length_map, length_seq. Qed.

Lemma unnLaplacian_run g dv x w :
  length x = num_nodes g → length dv = num_nodes g →
  unnLaplacian x (unsqueeze_last dv) g w = (Ok (lap g dv x), after_laps 1 w).
Proof.
  intros Lx Ld. unfold unnLaplacian, t_mul.
  rewrite broadcast2_mat_col by congruence.
  unfold update_all, ndata_set, mat_col at 1.
  unfold mbind, M_bind, bind, lift, modify, gets, ndata_pop.
  rewrite length_zip_with, Lx, Ld, Nat.min_id, Nat.eqb_refl. simpl.
  rewrite lookup_insert_eq, length_copy_u_sum, Nat.eqb_refl. simpl.
  rewrite lookup_insert_eq, broadcast2_mat_col
    by (by rewrite length_copy_u_sum).
  f_equal. unfold after_laps. f_equal.
  by rewrite !delete_insert_eq.
Qed.

(** Well-formed graphs: every edge joins two nodes. *)
Lemma wf_graph_edges g u v :
  wf_graph g = true → (u, v) ∈ edges g → u < num_nodes g ∧ v < num_nodes g.
Proof.
  unfold wf_graph. rewrite andb_true_iff, forallb_forall. intros [He _] Hin.
  apply list_elem_of_In, He in Hin. simpl in Hin.
  apply andb_true_iff in Hin as [?%Nat.ltb_lt ?%Nat.ltb_lt]. done.
Qed.

Lemma in_neighbours_lt g u v :
  wf_graph g = true → u ∈ in_neighbours g v → u < num_nodes g.
Proof.
  intros Hwf. unfold in_neighbours. rewrite list_elem_of_fmap.
  intros [[u' v'] [-> [_ Hin]%list_elem_of_filter]].
  by apply (wf_graph_edges g u' v').
Qed.

Lemma length_sum_rows m (msgs : list (list F)) :
  Forall (λ r, length r = m) msgs → length (sum_rows m msgs) = m.
Proof.
  unfold sum_rows. generalize (replicate m (of_nat 0 : F)) (length_replicate m (of_nat 0 : F)).
  intros acc Hacc Hm. revert acc Hacc.
  induction Hm as [|r msgs Hr _ IH]; intros acc Hacc; simpl; [done|].
  apply IH. rewrite length_zip_with. lia.
Qed.

Lemma shape_copy_u_sum g m x :
  wf_graph g = true → shape (num_nodes g) m x →
  shape (num_nodes g) m (copy_u_sum g x).
Proof.
  intros Hwf [Lx Hx]. split; [apply length_copy_u_sum|].
  unfold copy_u_sum. apply Forall_map, Forall_forall. intros v Hv. simpl.
  apply elem_of_seq in Hv.
  assert (Hn : ncols x = m).
  { destruct x as [|r x]; simpl in *; [lia|]. by apply Forall_cons in Hx as [? _]. }
  rewrite Hn. apply length_sum_rows, Forall_map, Forall_forall.
  intros u Hu. simpl. apply (in_neighbours_lt g u v Hwf) in Hu.
  rewrite <- Lx in Hu. apply lookup_lt_is_Some_2 in Hu as [r Hr].
  rewrite (nth_lookup_Some _ _ _ _ Hr).
  by apply (Forall_lookup_1 _ _ _ _ Hx Hr).
Qed.

Lemma shape_lap g m dv x :
  wf_graph g = true → shape (num_nodes g) m x → length dv = num_nodes g →
  shape (num_nodes g) m (lap g dv x).
Proof.
  intros Hwf Hx Ld. unfold lap.
  apply shape_mat_col; [|done]. apply shape_copy_u_sum; [done|].
  by apply shape_mat_col.
Qed.
End Laplacian.

(** ** The Chebyshev basis, term by term *)
Section Basis.
Context {F : Type} `{!Scalar F}.
Implicit Types (g : Graph) (w : World F) (x : mat F) (dv rv : list F).

(** Line 112, for the columns [D_invsqrt = unsqueeze_last dv] and
    [re_norm = unsqueeze_last rv]. *)
Definition X_1_of g dv rv (x0 : mat F) : mat F :=
  mat_mat fadd
    (col_mat fmul (map fopp rv) (lap g dv x0))
    (mat_col fmul x0 (map (λ r, fsub r (of_nat 1)) rv)).

(** Line 119. *)
Definition X_i_of g dv rv (x1 x0 : mat F) : mat F :=
  mat_mat fsub
    (mat_mat fadd
       (col_mat fmul (map (fmul (fopp (of_nat 2))) rv) (lap g dv x1))
       (mat_col fmul (s_mul_r (of_nat 2) x1) (map (λ r, fsub r (of_nat 1)) rv)))
    x0.

(** The terms that [n] iterations of the loop append, in order. *)
Fixpoint cheb_tail g dv rv (n : nat) (x1 x0 : mat F) : list (mat F) :=
  match n with
  | 0 => []
  | S n => let xi := X_i_of g dv rv x1 x0 in xi :: cheb_tail g dv rv n xi x1
  end.

(** The terms [X_0, X_1, ...] of a layer of order [k], in order. *)
Definition cheb_terms (k : nat) g dv rv (feat : mat F) : list (mat F) :=
  if 1 <? k
  then let x1 := X_1_of g dv rv feat in
       feat :: x1 :: cheb_tail g dv rv (k - 2) x1 feat
  else [feat].

(** Row [v] of the concatenation along the feature axis is the
    concatenation of the rows [v] of the terms. *)
Definition hcat_rows (n : nat) (ts : list (mat F)) : mat F :=
  map (λ v, concat (map (λ X, nth v X []) ts)) (seq 0 n).

Lemma map_nth_seq (x : mat F) : map (λ v, nth v x []) (seq 0 (length x)) = x.
Proof.
  apply list_eq. intros i. rewrite list_lookup_fmap.
  destruct (decide (i < length x)) as [Hi|Hi].
  - rewrite lookup_seq_lt by done. simpl.
    apply lookup_lt_is_Some_2 in Hi as [r Hr].
    by rewrite (nth_lookup_Some _ _ _ _ Hr).
  - rewrite lookup_seq_ge by lia. simpl. symmetry. apply lookup_ge_None. lia.
Qed.

Lemma hcat_rows_snoc n ts (t : mat F) :
  length t = n →
  zip_with app (hcat_rows n ts) t = hcat_rows n (ts ++ [t]).
Proof.
  intros Lt. unfold hcat_rows.
  rewrite <- (map_nth_seq t) at 1. rewrite Lt.
  rewrite zip_with_fmap_l, zip_with_fmap_r, zip_with_diag.
  apply map_ext. intros v.
  rewrite map_app, concat_app. simpl. by rewrite app_nil_r.
Qed.

Lemma foldl_cat_rows n (x0 : mat F) ts :
  length x0 = n → Forall (λ t, length t = n) ts →
  foldl (zip_with app) x0 ts = hcat_rows n (x0 :: ts).
Proof.
  intros L0 Hts. induction ts as [|t ts IH] using rev_ind.
  - simpl. unfold hcat_rows. simpl. rewrite <- (map_nth_seq x0) at 1.
    rewrite L0. apply map_ext. intros v. by rewrite app_nil_r.
  - apply Forall_app in Hts as [Hts [Ht _]%Forall_cons].
    rewrite foldl_app. simpl. rewrite IH by done.
    by rewrite hcat_rows_snoc.
Qed.

Lemma shape_hcat_rows n m (ts : list (mat F)) :
  Forall (shape n m) ts → shape n (length ts * m) (hcat_rows n ts).
Proof.
  intros Hts. split; unfold hcat_rows.
  - by rewrite length_map, length_seq.
  - apply Forall_map, Forall_forall. intros v Hv. simpl.
    apply elem_of_seq in Hv.
    induction Hts as [|t ts [Lt Ht] _ IH]; simpl; [done|].
    rewrite length_app, IH. f_equal.
    assert (is_Some (t !! v)) as [r Hr] by (apply lookup_lt_is_Some_2; lia).
    rewrite (nth_lookup_Some _ _ _ _ Hr).
    by apply (Forall_lookup_1 _ _ _ _ Ht Hr).
Qed.

Section Shapes.
Variables (g : Graph) (m : nat) (dv rv : list F).
Hypothesis Hwf : wf_graph g = true.
Hypothesis Ld : length dv = num_nodes g.
Hypothesis Lr : length rv = num_nodes g.

Lemma shape_X_1_of x0 :
  shape (num_nodes g) m x0 → shape (num_nodes g) m (X_1_of g dv rv x0).
Proof using Hwf Ld Lr.
  intros H0. unfold X_1_of. apply shape_mat_mat.
  - apply shape_col_mat; [by rewrite length_map|]. by apply shape_lap.
  - apply shape_mat_col; [done|]. by rewrite length_map.
Qed.

Lemma shape_X_i_of x1 x0 :
  shape (num_nodes g) m x1 → shape (num_nodes g) m x0 →
  shape (num_nodes g) m (X_i_of g dv rv x1 x0).
Proof using Hwf Ld Lr.
  intros H1 H0. unfold X_i_of. apply shape_mat_mat; [|done].
  apply shape_mat_mat.
  - apply shape_col_mat; [by rewrite length_map|]. by apply shape_lap.
  - apply shape_mat_col; [|by rewrite length_map]. by apply shape_t_map.
Qed.

Lemma shape_cheb_tail n x1 x0 :
  shape (num_nodes g) m x1 → shape (num_nodes g) m x0 →
  Forall (shape (num_nodes g) m) (cheb_tail g dv rv n x1 x0).
Proof using Hwf Ld Lr.
  revert x1 x0. induction n as [|n IH]; intros x1 x0 H1 H0; simpl; [done|].
  constructor; [by apply shape_X_i_of|].
  apply IH; [by apply shape_X_i_of|done].
Qed.

Lemma length_cheb_tail n x1 x0 : length (cheb_tail g dv rv n x1 x0) = n.
Proof.
  clear Hwf Ld Lr.
  revert x1 x0. induction n as [|n IH]; intros x1 x0; simpl; [done|].
  by rewrite IH.
Qed.

Lemma shape_cheb_terms k feat :
  shape (num_nodes g) m feat →
  Forall (shape (num_nodes g) m) (cheb_terms k g dv rv feat).
Proof using Hwf Ld Lr.
  intros Hf. unfold cheb_terms. destruct (1 <? k); [|by constructor].
  constructor; [done|]. constructor; [by apply shape_X_1_of|].
  apply shape_cheb_tail; [by apply shape_X_1_of|done].
Qed.

Lemma length_cheb_terms k feat :
  1 ≤ k → length (cheb_terms k g dv rv feat) = k.
Proof.
  clear Hwf Ld Lr.
  intros Hk. unfold cheb_terms. destruct (1 <? k) eqn:E.
  - apply Nat.ltb_lt in E. simpl. rewrite length_cheb_tail. lia.
  - apply Nat.ltb_ge in E. simpl. lia.
Qed.

(** The loop, run: it appends the terms of [cheb_tail] to [Xt]. *)
Lemma cheb_loop_run n Xt x1 x0 w :
  shape (num_nodes g) m x1 → shape (num_nodes g) m x0 →
  length Xt = num_nodes g →
  cheb_loop g (unsqueeze_last dv) (unsqueeze_last rv) n Xt x1 x0 w =
    (Ok (foldl (zip_with app) Xt (cheb_tail g dv rv n x1 x0)), after_laps n w).
Proof using Hwf Ld Lr.
  revert Xt x1 x0 w.
  induction n as [|n IH]; intros Xt x1 x0 w H1 H0 Lt; simpl.
  { by rewrite after_laps_0. }
  unfold mbind, M_bind, bind.
  rewrite unnLaplacian_run by (done || apply H1).
  unfold lift, t_mul, t_add, t_sub, s_mul_l, s_sub_r.
  rewrite !t_map_unsqueeze.
  assert (Hl := shape_lap g m dv x1 Hwf H1 Ld).
  rewrite broadcast2_col_mat by (rewrite length_map; destruct Hl; lia).
  rewrite broadcast2_mat_col
    by (unfold s_mul_r, t_map; rewrite !length_map; destruct H1; lia).
  erewrite broadcast2_mat_mat; cycle 1.
  { apply shape_col_mat; [by rewrite length_map|done]. }
  { apply shape_mat_col; [by apply shape_t_map|by rewrite length_map]. }
  erewrite broadcast2_mat_mat; cycle 1.
  { apply shape_mat_mat.
    - apply shape_col_mat; [by rewrite length_map|done].
    - apply shape_mat_col; [by apply shape_t_map|by rewrite length_map]. }
  { done. }
  fold (X_i_of g dv rv x1 x0).
  assert (Hi := shape_X_i_of x1 x0 H1 H0).
  unfold th_cat1. destruct Hi as [Li Hi']. rewrite Lt, Li, Nat.eqb_refl.
  rewrite IH; [|by split|done|rewrite length_zip_with; lia].
  by rewrite after_laps_S'.
Qed.

(** Lines 107-122, run: [Xt] is the concatenation of the terms. *)
Lemma chebyshev_basis_run k feat w :
  shape (num_nodes g) m feat →
  chebyshev_basis k g (unsqueeze_last dv) (unsqueeze_last rv) feat w =
    (Ok (hcat_rows (num_nodes g) (cheb_terms k g dv rv feat)),
     after_laps (k - 1) w).
Proof using Hwf Ld Lr.
  intros Hf. unfold chebyshev_basis, cheb_terms.
  destruct (1 <? k) eqn:E.
  - apply Nat.ltb_lt in E.
    unfold mbind, M_bind, bind.
    rewrite unnLaplacian_run by (done || apply Hf).
    unfold lift, t_mul, t_add, t_neg, s_sub_r.
    rewrite !t_map_unsqueeze.
    assert (Hl := shape_lap g m dv feat Hwf Hf Ld).
    rewrite broadcast2_col_mat by (rewrite length_map; destruct Hl; lia).
    rewrite broadcast2_mat_col by (rewrite length_map; destruct Hf; lia).
    erewrite broadcast2_mat_mat; cycle 1.
    { apply shape_col_mat; [by rewrite length_map|done]. }
    { apply shape_mat_col; [done|by rewrite length_map]. }
    fold (X_1_of g dv rv feat).
    assert (H1 := shape_X_1_of feat Hf).
    unfold th_cat1. destruct Hf as [L0 Hf'], H1 as [L1 H1'].
    rewrite L0, L1, Nat.eqb_refl.
    rewrite cheb_loop_run; [|by split|by split|rewrite length_zip_with; lia].
    rewrite after_laps_S'. replace (S (k - 2)) with (k - 1) by lia.
    f_equal. f_equal.
    change (foldl (zip_with app) (zip_with app feat (X_1_of g dv rv feat)) ?l)
      with (foldl (zip_with app) feat (X_1_of g dv rv feat :: l)).
    apply foldl_cat_rows; [done|]. constructor; [done|].
    eapply Forall_impl; [apply shape_cheb_tail; by split|].
    by intros ? [? _].
  - apply Nat.ltb_ge in E. replace (k - 1) with 0 by lia.
    rewrite after_laps_0. unfold ret. f_equal. f_equal.
    unfold hcat_rows. simpl. destruct Hf as [L0 _].
    rewrite <- (map_nth_seq feat) at 1. rewrite L0.
    apply map_ext. intros v. by rewrite app_nil_r.
Qed.
End Shapes.
End Basis.

(** ** The whole call on valid arguments *)
Section Forward.
Context {F : Type} `{!Scalar F}.
Implicit Types (g : Graph) (w : World F) (self : ChebConv F).

(** The per-graph values of a [lambda_max] that was supplied in one of
    the three documented forms. *)
Definition lambda_values (lambda_max : lambda_arg F) : option (list F) :=
  match lambda_max with
  | LNone => None
  | LList l => Some l
  | LTensor (T1 v) => Some v
  | LTensor (T2 m) => if forallb (λ r, length r =? 1) m then Some (concat m) else None
  end.

(** One value per graph, replicated over the nodes of the graph. *)
Definition per_node (g : Graph) (l : list F) : list F :=
  concat (zip_with (λ a n, replicate n a) l (batch_num_nodes g)).

Definition activate self (h : mat F) : mat F :=
  match activation self with Some act => t_map act h | None => h end.

Lemma unsqueeze_concat (m : mat F) :
  forallb (λ r, length r =? 1) m = true → unsqueeze_last (concat m) = m.
Proof.
  induction m as [|r m IH]; simpl; [done|].
  rewrite andb_true_iff, Nat.eqb_eq. intros [Hr Hm].
  destruct r as [|a [|??]]; simplify_eq/=. by rewrite IH.
Qed.

Lemma normalize_lambda_values lambda_max l :
  lambda_values lambda_max = Some l →
  normalize_lambda_max lambda_max = unsqueeze_last l.
Proof.
  destruct lambda_max as [|l'|[v|m]]; simpl; intros E; simplify_eq; try done.
  destruct (forallb _ m) eqn:Em; simplify_eq. by rewrite unsqueeze_concat.
Qed.

Lemma broadcast_nodes_unsqueeze g (l : list F) :
  length l = batch_size g →
  broadcast_nodes g (unsqueeze_last l) = Ok (unsqueeze_last (per_node g l)).
Proof.
  intros Ll. unfold broadcast_nodes, unsqueeze_last at 1.
  rewrite length_map, Ll, Nat.eqb_refl. f_equal.
  unfold per_node, batch_size in *. clear Ll.
  generalize (batch_num_nodes g). induction l as [|a l IH]; intros [|n ns]; simpl; try done.
  unfold unsqueeze_last in *. rewrite map_app, <- IH. f_equal.
  clear. induction n; simpl; congruence.
Qed.

Lemma length_per_node g (l : list F) :
  wf_graph g = true → length l = batch_size g →
  length (per_node g l) = num_nodes g.
Proof.
  unfold wf_graph, per_node, batch_size.
  rewrite andb_true_iff, Nat.eqb_eq. intros [_ <-].
  generalize (batch_num_nodes g). induction l as [|a l IH]; intros [|n ns] E;
    simplify_eq/=; [done|].
  rewrite length_app, length_replicate. f_equal. by apply IH.
Qed.

(** [re_norm] for a supplied [lambda_max]. *)
Definition re_norm_values g (l : list F) : list F :=
  map (fdiv (of_nat 2)) (per_node g l).

Lemma re_norm_of_supplied env g lambda_max l w :
  lambda_values lambda_max = Some l → length l = batch_size g →
  re_norm_of env g lambda_max w = (Ok (unsqueeze_last (re_norm_values g l)), w).
Proof.
  intros Hl Ll. unfold re_norm_of, mbind, M_bind, bind.
  assert (default_lambda_max env g lambda_max w = (Ok lambda_max, w)) as ->.
  { by destruct lambda_max. }
  rewrite (normalize_lambda_values _ l Hl), broadcast_nodes_unsqueeze by done.
  unfold lift, ret, s_div_l. cbv beta iota. by rewrite t_map_unsqueeze.
Qed.

Lemma re_norm_of_estimated env g l w :
  laplacian_lambda_max env g = Some l → length l = batch_size g →
  re_norm_of env g LNone w =
    (Ok (unsqueeze_last (re_norm_values g l)), emit EvEstimate w).
Proof.
  intros Hl Ll. unfold re_norm_of, default_lambda_max, mbind, M_bind, bind, modify.
  rewrite Hl. unfold ret, normalize_lambda_max, th_Tensor_list. cbv beta iota.
  rewrite broadcast_nodes_unsqueeze by done.
  unfold lift, s_div_l. cbv beta iota. by rewrite t_map_unsqueeze.
Qed.

(** *** nn.Linear on operands of the right shapes *)
Lemma mapM_ok {A B} (f : A → result B) (P : B → Prop) (xs : list A) :
  Forall (λ x, ∃ y, f x = Ok y ∧ P y) xs →
  ∃ ys, mapM f xs = Ok ys ∧ length ys = length xs ∧ Forall P ys.
Proof.
  induction 1 as [|x xs (y & Hy & Py) _ (ys & Hys & Lys & Pys)]; simpl.
  - by exists [].
  - exists (y :: ys). rewrite Hy, Hys. simpl. repeat split; auto.
Qed.

Definition bias_fits (o : nat) (bias : option (list F)) : bool :=
  match bias with None => true | Some b => length b =? o end.

Lemma linear_ok n i o (weight : mat F) bias (x : mat F) :
  shape o i weight → bias_fits o bias = true → shape n i x →
  ∃ y, linear weight bias x = Ok y ∧ shape n o y.
Proof.
  intros [Lw Hw] Hb [Lx Hx]. unfold linear.
  destruct (mapM_ok (λ r, rbind (mapM (dot r) weight) (add_bias bias))
              (λ y, length y = o) x) as (y & Hy & Ly & Py).
  - eapply Forall_impl; [exact Hx|]. intros r Hr. simpl in Hr.
    destruct (mapM_ok (dot r) (λ _, True) weight) as (z & Hz & Lz & _).
    { eapply Forall_impl; [exact Hw|]. intros wr Hwr. simpl in Hwr.
      unfold dot. rewrite Hr, Hwr, Nat.eqb_refl. eauto. }
    rewrite Hz. simpl. unfold add_bias, bias_fits in *.
    destruct bias as [b|]; [|exists z; split; [done|lia]].
    apply Nat.eqb_eq in Hb. rewrite Lz, Lw, Hb, Nat.eqb_refl.
    eexists; split; [done|]. rewrite length_zip_with. lia.
  - exists y. split; [done|]. split; [lia|done].
Qed.

(** *** forward, run *)

(** The arguments are valid for the layer and the graph: the graph is
    well formed, [feat] has one row of [_in_feats] entries per node, the
    parameters of [self.linear] have the shapes [__init__] gave them, and
    [lambda_max] holds one value per graph. *)
Definition valid_call self g w (l : list F) : bool :=
  wf_graph g
  && is_shape (num_nodes g) (_in_feats self) (feat_tensor w)
  && is_shape (_out_feats self) (_k self * _in_feats self) (linear_weight w)
  && bias_fits (_out_feats self) (linear_bias w)
  && (1 <=? _k self)
  && (length l =? batch_size g).

(** The concatenated basis of the call. *)
Definition basis_of self g w (l : list F) : mat F :=
  hcat_rows (num_nodes g)
    (cheb_terms (_k self) g
       (concat (D_invsqrt_of g)) (re_norm_values g l) (feat_tensor w)).

Lemma D_invsqrt_unsqueeze g :
  D_invsqrt_of g = unsqueeze_last (concat (D_invsqrt_of g)).
Proof.
  unfold D_invsqrt_of. symmetry. apply unsqueeze_concat.
  unfold unsqueeze_last. rewrite forallb_forall. intros r Hr.
  apply in_map_iff in Hr as (? & <- & _). done.
Qed.

Lemma length_D_invsqrt g : length (concat (D_invsqrt_of g)) = num_nodes g.
Proof.
  assert (length (D_invsqrt_of g) = num_nodes g) as <-.
  { unfold D_invsqrt_of, unsqueeze_last, in_degrees.
    by rewrite !length_map, length_seq. }
  rewrite D_invsqrt_unsqueeze at 2. unfold unsqueeze_last.
  by rewrite length_map.
Qed.

Lemma forward_body_run self env g lambda_max l w w1 :
  valid_call self g w l = true →
  re_norm_of env g lambda_max w = (Ok (unsqueeze_last (re_norm_values g l)), w1) →
  linear_weight w1 = linear_weight w → linear_bias w1 = linear_bias w →
  ∃ y, linear (linear_weight w) (linear_bias w) (basis_of self g w l) = Ok y
     ∧ shape (num_nodes g) (_out_feats self) y
     ∧ shape (num_nodes g) (_k self * _in_feats self) (basis_of self g w l)
     ∧ forward self env g lambda_max w =
         (Ok (activate self y),
          set_ndata (ndata w) (after_laps (_k self - 1) w1)).
Proof.
  unfold valid_call. rewrite !andb_true_iff, !is_shape_spec, Nat.leb_le, Nat.eqb_eq.
  intros [[[[[Hwf Hf] Hw] Hb] Hk] Ll] Hre Ew Eb.
  assert (Lr : length (re_norm_values g l) = num_nodes g).
  { unfold re_norm_values. rewrite length_map. by apply length_per_node. }
  assert (Hts := shape_cheb_terms g (_in_feats self) (concat (D_invsqrt_of g))
                   (re_norm_values g l) Hwf (length_D_invsqrt g) Lr
                   (_k self) (feat_tensor w) Hf).
  assert (Hx := shape_hcat_rows _ _ _ Hts).
  rewrite length_cheb_terms in Hx by done.
  destruct (linear_ok _ _ _ _ _ _ Hw Hb Hx) as (y & Hy & Sy).
  exists y. repeat split; try done; try apply Sy; try apply Hx.
  unfold forward, forward_body, local_scope, mbind, M_bind, bind, gets. simpl.
  rewrite Hre, D_invsqrt_unsqueeze.
  rewrite (chebyshev_basis_run g (_in_feats self) _ _ Hwf (length_D_invsqrt g) Lr)
    by done.
  cbv beta iota.
  change (linear_weight (after_laps (_k self - 1) w1)) with (linear_weight w1).
  change (linear_bias (after_laps (_k self - 1) w1)) with (linear_bias w1).
  rewrite Ew, Eb. unfold basis_of in Hy. rewrite Hy.
  unfold activate, ret. by destruct (activation self).
Qed.
End Forward.

(** ** Effects of a call on every argument, valid or not *)
Section Effects.
Context {F : Type} `{!Scalar F}.
Implicit Types (g : Graph) (w : World F) (self : ChebConv F) (P : event → Prop).

(** The tensor objects of the caller are the same in both worlds. *)
Definition same_objects w w' : Prop :=
  feat_tensor w' = feat_tensor w
  ∧ linear_weight w' = linear_weight w
  ∧ linear_bias w' = linear_bias w.

(** The node frames differ at most in the field [h]. *)
Definition same_but_h (nd nd' : gmap string (mat F)) : Prop :=
  ∀ key, key ≠ "h" → nd' !! key = nd !! key.

(** [emits P m]: running [m] leaves the tensor objects alone, writes no
    field of the node frame but [h], and appends to the trace only events
    that satisfy [P]. *)
Definition emits P {A} (m : M A) : Prop :=
  ∀ w, same_objects w (m w).2
       ∧ same_but_h (ndata w) (ndata (m w).2)
       ∧ ∃ evs, trace (m w).2 = trace w ++ evs ∧ Forall P evs.

Lemma emits_silent P {A} (m : M A) :
  (∀ w, ∃ nd, (m w).2 = set_ndata nd w ∧ same_but_h (ndata w) nd) → emits P m.
Proof.
  intros Hm w. destruct (Hm w) as (nd & -> & Hnd). split; [done|].
  split; [done|]. exists []. simpl. by rewrite app_nil_r.
Qed.

Lemma set_ndata_id w : set_ndata (ndata w) w = w.
Proof. by destruct w. Qed.

Lemma emits_ret P {A} (a : A) : emits P (ret a : M A).
Proof. apply emits_silent. intros w. exists (ndata w). by rewrite set_ndata_id. Qed.

Lemma emits_lift P {A} (r : result A) : emits P (lift r : M A).
Proof. apply emits_silent. intros w. exists (ndata w). by rewrite set_ndata_id. Qed.

Lemma emits_gets P {A} (f : World F → A) : emits P (gets f).
Proof. apply emits_silent. intros w. exists (ndata w). by rewrite set_ndata_id. Qed.

Lemma emits_bind P {A B} (m : M A) (k : A → M B) :
  emits P m → (∀ a, emits P (k a)) → emits P (m ≫= k).
Proof.
  intros Hm Hk w. unfold mbind, M_bind, bind.
  destruct (Hm w) as ((Ef & Ew & Eb) & Hh & evs & Et & Hevs).
  destruct (m w) as [[a|e] w1]; simpl in *.
  - destruct (Hk a w1) as ((Ef' & Ew' & Eb') & Hh' & evs' & Et' & Hevs').
    split; [by unfold same_objects; rewrite Ef', Ew', Eb'|].
    split; [by intros key Hkey; rewrite Hh', Hh|].
    exists (evs ++ evs'). rewrite Et', Et, app_assoc. split; [done|].
    by apply Forall_app.
  - split; [done|]. split; [done|]. by exists evs.
Qed.

Lemma emits_emit P e : P e → emits P (modify (emit e) : M unit).
Proof.
  intros He w. split; [done|]. split; [done|].
  exists [e]. split; [done|]. by constructor.
Qed.

Lemma emits_ndata_set P g (x : mat F) : emits P (ndata_set g "h" x).
Proof.
  unfold ndata_set. destruct (_ =? _); [|apply emits_lift].
  apply emits_silent. intros w. eexists. split; [done|].
  intros key Hkey. by rewrite lookup_insert_ne.
Qed.

Lemma emits_ndata_pop P : emits P (ndata_pop "h" : M (mat F)).
Proof.
  apply emits_silent. intros w. unfold ndata_pop.
  destruct (ndata w !! "h"); simpl.
  - eexists. split; [done|]. intros key Hkey. by rewrite lookup_delete_ne.
  - exists (ndata w). by rewrite set_ndata_id.
Qed.

Lemma emits_update_all P g :
  P EvUpdateAll → emits P (update_all g "h" "h" : M unit).
Proof.
  intros HP. unfold update_all.
  apply emits_bind; [by apply emits_emit|]. intros _.
  apply emits_bind; [apply emits_gets|]. intros nd.
  destruct (nd !! "h"); [apply emits_ndata_set|apply emits_lift].
Qed.

Lemma emits_unnLaplacian P (x D : mat F) g :
  P EvUpdateAll → emits P (unnLaplacian x D g).
Proof.
  intros HP. unfold unnLaplacian.
  apply emits_bind; [apply emits_lift|]. intros y.
  apply emits_bind; [apply emits_ndata_set|]. intros _.
  apply emits_bind; [by apply emits_update_all|]. intros _.
  apply emits_bind; [apply emits_ndata_pop|]. intros h.
  apply emits_lift.
Qed.

Lemma emits_cheb_loop P g (D r : mat F) n (Xt X_1 X_0 : mat F) :
  P EvUpdateAll → emits P (cheb_loop g D r n Xt X_1 X_0).
Proof.
  intros HP. revert Xt X_1 X_0.
  induction n as [|n IH]; intros Xt X_1 X_0; simpl; [apply emits_ret|].
  apply emits_bind; [by apply emits_unnLaplacian|]. intros h.
  repeat (apply emits_bind; [apply emits_lift|]; intros ?).
  apply IH.
Qed.

Lemma emits_chebyshev_basis P k g (D r feat : mat F) :
  (1 < k → P EvUpdateAll) → emits P (chebyshev_basis k g D r feat).
Proof.
  intros HP. unfold chebyshev_basis.
  destruct (1 <? k) eqn:E; [|apply emits_ret].
  apply Nat.ltb_lt in E. specialize (HP E).
  apply emits_bind; [by apply emits_unnLaplacian|]. intros h.
  repeat (apply emits_bind; [apply emits_lift|]; intros ?).
  by apply emits_cheb_loop.
Qed.

Lemma emits_re_norm_of P env g (lambda_max : lambda_arg F) :
  (lambda_max = LNone → P EvEstimate ∧ ∀ c msg, P (EvWarning c msg)) →
  emits P (re_norm_of env g lambda_max).
Proof.
  intros HP. unfold re_norm_of.
  apply emits_bind.
  - unfold default_lambda_max. destruct lambda_max; try apply emits_ret.
    destruct HP as [He Hw]; [done|].
    apply emits_bind; [by apply emits_emit|]. intros _.
    destruct (laplacian_lambda_max env g); [apply emits_ret|].
    apply emits_bind; [apply emits_emit, Hw|]. intros _. apply emits_ret.
  - intros lam. apply emits_bind; [apply emits_lift|]. intros ?. apply emits_ret.
Qed.

Lemma emits_local_scope P {A} (body : M A) :
  emits P body → emits P (local_scope body).
Proof.
  intros Hb w. unfold local_scope. destruct (Hb w) as (Hs & _ & He).
  by destruct (body w) as [r w'].
Qed.

Lemma emits_forward_body P self env g (lambda_max : lambda_arg F) :
  (1 < _k self → P EvUpdateAll) →
  (lambda_max = LNone → P EvEstimate ∧ ∀ c msg, P (EvWarning c msg)) →
  emits P (forward_body self env g lambda_max).
Proof.
  intros Hu Hl. unfold forward_body.
  apply emits_bind; [apply emits_gets|]. intros feat.
  apply emits_bind; [by apply emits_re_norm_of|]. intros r.
  apply emits_bind; [by apply emits_chebyshev_basis|]. intros Xt.
  apply emits_bind; [apply emits_gets|]. intros weight.
  apply emits_bind; [apply emits_gets|]. intros bias.
  apply emits_bind; [apply emits_lift|]. intros h.
  destruct (activation self); apply emits_ret.
Qed.

Lemma emits_forward P self env g (lambda_max : lambda_arg F) :
  (1 < _k self → P EvUpdateAll) →
  (lambda_max = LNone → P EvEstimate ∧ ∀ c msg, P (EvWarning c msg)) →
  emits P (forward self env g lambda_max).
Proof.
  intros Hu Hl. unfold forward. by apply emits_local_scope, emits_forward_body.
Qed.

(** The node frame after a call is the node frame before it. *)
Lemma forward_ndata self env g (lambda_max : lambda_arg F) w :
  ndata (forward self env g lambda_max w).2 = ndata w.
Proof.
  unfold forward, local_scope.
  match goal with |- context [let '(_, _) := ?b in _] => by destruct b end.
Qed.

(** *** The value does not depend on the node frame or the trace *)

Definition oblivious {A} (m : M A) : Prop :=
  ∀ w1 w2, same_objects w1 w2 →
    (m w1).1 = (m w2).1 ∧ same_objects (m w1).2 (m w2).2.

Lemma oblivious_ret {A} (a : A) : oblivious (ret a : M A).
Proof. by intros w1 w2 H. Qed.

Lemma oblivious_lift {A} (r : result A) : oblivious (lift r : M A).
Proof. by intros w1 w2 H. Qed.

Lemma oblivious_bind {A B} (m : M A) (k : A → M B) :
  oblivious m → (∀ a, oblivious (k a)) → oblivious (m ≫= k).
Proof.
  intros Hm Hk w1 w2 H. unfold mbind, M_bind, bind.
  destruct (Hm w1 w2 H) as [E1 E2].
  destruct (m w1) as [[a|e] w1'], (m w2) as [[a'|e'] w2']; simplify_eq/=; [|done].
  by apply Hk.
Qed.

(** [unnLaplacian] on any operands: the field it reads is the one it
    has just written. *)
Lemma unnLaplacian_total (x D : mat F) g w :
  unnLaplacian x D g w =
    match t_mul x D with
    | Raise e => (Raise e, w)
    | Ok y =>
        if length y =? num_nodes g
        then (t_mul (copy_u_sum g y) D, after_laps 1 w)
        else (Raise DGLError, w)
    end.
Proof.
  unfold unnLaplacian, update_all, ndata_set.
  unfold mbind, M_bind, bind, lift, modify, gets, ndata_pop.
  destruct (t_mul x D) as [y|e]; [|done].
  destruct (length y =? num_nodes g); [|done]. simpl.
  rewrite lookup_insert_eq, length_copy_u_sum, Nat.eqb_refl. simpl.
  rewrite lookup_insert_eq.
  assert (set_ndata
            (delete "h" (<["h":=copy_u_sum g y]> (<["h":=y]> (ndata w))))
            (set_ndata (<["h":=copy_u_sum g y]> (<["h":=y]> (ndata w)))
               (emit EvUpdateAll (set_ndata (<["h":=y]> (ndata w)) w)))
          = after_laps 1 w) as ->.
  { unfold after_laps, set_ndata. simpl. by rewrite !delete_insert_eq. }
  by destruct (t_mul _ D).
Qed.

Lemma oblivious_unnLaplacian (x D : mat F) g : oblivious (unnLaplacian x D g).
Proof.
  intros w1 w2 H. rewrite !unnLaplacian_total.
  destruct (t_mul x D) as [y|e]; [|done].
  by destruct (length y =? num_nodes g).
Qed.

Lemma oblivious_cheb_loop g (D r : mat F) n (Xt X_1 X_0 : mat F) :
  oblivious (cheb_loop g D r n Xt X_1 X_0).
Proof.
  revert Xt X_1 X_0.
  induction n as [|n IH]; intros Xt X_1 X_0; simpl; [apply oblivious_ret|].
  apply oblivious_bind; [by apply oblivious_unnLaplacian|]. intros h.
  repeat (apply oblivious_bind; [apply oblivious_lift|]; intros ?).
  apply IH.
Qed.

Lemma oblivious_chebyshev_basis k g (D r feat : mat F) :
  oblivious (chebyshev_basis k g D r feat).
Proof.
  unfold chebyshev_basis. destruct (1 <? k); [|apply oblivious_ret].
  apply oblivious_bind; [by apply oblivious_unnLaplacian|]. intros h.
  repeat (apply oblivious_bind; [apply oblivious_lift|]; intros ?).
  apply oblivious_cheb_loop.
Qed.

Lemma oblivious_re_norm_of env g (lambda_max : lambda_arg F) :
  oblivious (re_norm_of env g lambda_max).
Proof.
  unfold re_norm_of. apply oblivious_bind.
  - unfold default_lambda_max. destruct lambda_max; try apply oblivious_ret.
    apply oblivious_bind; [by intros w1 w2 H|]. intros _.
    destruct (laplacian_lambda_max env g); [apply oblivious_ret|].
    apply oblivious_bind; [by intros w1 w2 H|]. intros _. apply oblivious_ret.
  - intros lam. apply oblivious_bind; [apply oblivious_lift|]. intros ?.
    apply oblivious_ret.
Qed.

Lemma oblivious_forward self env g (lambda_max : lambda_arg F) :
  oblivious (forward self env g lambda_max).
Proof.
  assert (Hbody : ∀ body : M (mat F), oblivious body → oblivious (local_scope body)).
  { intros body Hb w1 w2 H. unfold local_scope. destruct (Hb w1 w2 H) as [E1 E2].
    by destruct (body w1), (body w2). }
  unfold forward, forward_body. apply Hbody.
  apply oblivious_bind.
  { intros w1 w2 H. unfold gets. simpl. split; [|done]. f_equal. symmetry. apply H. }
  intros feat.
  apply oblivious_bind; [apply oblivious_re_norm_of|]. intros r.
  apply oblivious_bind; [apply oblivious_chebyshev_basis|]. intros Xt.
  unfold oblivious, mbind, M_bind, bind, gets, lift. intros w1 w2 (Ef & Ew & Eb).
  simpl. rewrite Ew, Eb.
  destruct (linear _ _ Xt); [|done]. by destruct (activation self).
Qed.
End Effects.


(** ** Properties of the layer, for every scalar arithmetic *)
Section Properties.
Context {F : Type} `{!Scalar F}.
Implicit Types (g : Graph) (w : World F) (self : ChebConv F).

(** The per-graph values a call works with: the supplied ones, or the
    estimate when [lambda_max] is [None] and the estimator returns. *)
Definition resolved_lambda (env : Env F) g (lambda_max : lambda_arg F)
  : option (list F) :=
match lambda_max with
| LNone => laplacian_lambda_max env g
| _ => lambda_values lambda_max
end.

Lemma re_norm_of_resolved env g lambda_max l w :
resolved_lambda env g lambda_max = Some l → length l = batch_size g →
∃ w1, re_norm_of env g lambda_max w = (Ok (unsqueeze_last (re_norm_values g l)), w1)
      ∧ linear_weight w1 = linear_weight w ∧ linear_bias w1 = linear_bias w.
Proof.
intros Hl Ll. destruct lambda_max as [|l'|t].
- eexists. split; [by apply re_norm_of_estimated|done].
- exists w. split; [|done]. by apply re_norm_of_supplied.
- exists w. split; [|done]. by apply re_norm_of_supplied.
Qed.

(** C7: on valid arguments the concatenated basis [Xt] is the row-wise
    concatenation of the [_k] terms [X_0, ..., X_(k-1)] in that order, of
    shape (N, k * D_in), and [forward] returns a tensor of shape
    (N, out_feats). *)
Theorem forward_shapes self env g lambda_max l w :
valid_call self g w l = true →
resolved_lambda env g lambda_max = Some l →
let terms := cheb_terms (_k self) g (concat (D_invsqrt_of g))
               (re_norm_values g l) (feat_tensor w) in
let Xt := hcat_rows (num_nodes g) terms in
length terms = _k self
∧ Forall (λ X, is_shape (num_nodes g) (_in_feats self) X = true) terms
∧ chebyshev_basis (_k self) g (D_invsqrt_of g)
    (unsqueeze_last (re_norm_values g l)) (feat_tensor w) w
  = (Ok Xt, after_laps (_k self - 1) w)
∧ is_shape (num_nodes g) (_k self * _in_feats self) Xt = true
∧ ∃ y w', linear (linear_weight w) (linear_bias w) Xt = Ok y
        ∧ forward self env g lambda_max w = (Ok (activate self y), w')
        ∧ is_shape (num_nodes g) (_out_feats self) (activate self y) = true.
Proof.
intros Hv Hl terms Xt. subst terms Xt.
assert (Hv' := Hv). unfold valid_call in Hv'.
rewrite !andb_true_iff, !is_shape_spec, Nat.leb_le, Nat.eqb_eq in Hv'.
destruct Hv' as [[[[[Hwf Hf] Hw] Hb] Hk] Ll].
assert (Lr : length (re_norm_values g l) = num_nodes g).
{ unfold re_norm_values. rewrite length_map. by apply length_per_node. }
destruct (re_norm_of_resolved env g lambda_max l w Hl Ll) as (w1 & Hre & Ew & Eb).
destruct (forward_body_run self env g lambda_max l w w1 Hv Hre Ew Eb)
  as (y & Hy & Sy & Sx & Hrun).
split; [by apply length_cheb_terms|].
split.
{ eapply Forall_impl;
    [exact (shape_cheb_terms g (_in_feats self) _ _ Hwf (length_D_invsqrt g) Lr
              (_k self) (feat_tensor w) Hf)|].
  intros X HX. apply is_shape_spec. exact HX. }
split.
{ pose proof (chebyshev_basis_run g (_in_feats self) _ _ Hwf
                (length_D_invsqrt g) Lr (_k self) (feat_tensor w) w Hf) as Hbasis.
  rewrite <- D_invsqrt_unsqueeze in Hbasis. exact Hbasis. }
split; [apply is_shape_spec; exact Sx|].
exists y. eexists. split; [exact Hy|]. split; [exact Hrun|].
apply is_shape_spec. unfold activate. destruct (activation self); [|exact Sy].
apply shape_t_map. exact Sy.
Qed.

(** C6: a list, a 1-D tensor and a (B, 1) tensor of the same values are
    normalized to the same (B, 1) tensor, and [forward] does the same on
    the three. *)
Theorem lambda_max_forms_agree self env g (l : list F) w :
(normalize_lambda_max (LList l) = unsqueeze_last l
 ∧ normalize_lambda_max (LTensor (T1 l)) = unsqueeze_last l
 ∧ normalize_lambda_max (LTensor (T2 (unsqueeze_last l))) = unsqueeze_last l
 ∧ is_shape (length l) 1 (unsqueeze_last l) = true)
∧ forward self env g (LList l) w = forward self env g (LTensor (T1 l)) w
∧ forward self env g (LTensor (T1 l)) w
  = forward self env g (LTensor (T2 (unsqueeze_last l))) w.
Proof.
split; [|done]. repeat split.
apply is_shape_spec. split; unfold unsqueeze_last.
- by rewrite length_map.
- by apply Forall_map, Forall_true.
Qed.

(** C8: after [forward] the node frame of the graph, the [feat] tensor and
    the parameters of [self.linear] are what they were before, on every
    argument and whether the call returns or raises; under the scope the
    body writes no field but [h], and a Laplacian application that returns
    has popped it. *)
Theorem forward_leaves_caller_objects self env g (lambda_max : lambda_arg F) w :
(ndata (forward self env g lambda_max w).2 = ndata w
 ∧ feat_tensor (forward self env g lambda_max w).2 = feat_tensor w
 ∧ linear_weight (forward self env g lambda_max w).2 = linear_weight w
 ∧ linear_bias (forward self env g lambda_max w).2 = linear_bias w)
∧ same_but_h (ndata w) (ndata (forward_body self env g lambda_max w).2)
∧ (∀ (x D : mat F) w0,
     is_ok (unnLaplacian x D g w0).1 = true →
     ndata (unnLaplacian x D g w0).2 !! "h" = None).
Proof.
split; [|split].
- split; [apply forward_ndata|].
  by destruct (emits_forward (λ _, True) self env g lambda_max) with (w := w)
    as [? _].
- by destruct (emits_forward_body (λ _, True) self env g lambda_max)
    with (w := w) as (_ & ? & _).
- intros x D w0. rewrite unnLaplacian_total.
  destruct (t_mul x D) as [y|e]; [|done].
  destruct (length y =? num_nodes g); [|done].
  intros _. simpl. apply lookup_delete_eq.
Qed.

(** C10: when [lambda_max] is supplied the estimator is not called and no
    warning is emitted, and the call does not depend on the environment
    (the estimator and the uninitialised memory). *)
Theorem supplied_lambda_max_skips_estimator self env1 env2 g
  (lambda_max : lambda_arg F) w :
lambda_max ≠ LNone →
forward self env1 g lambda_max w = forward self env2 g lambda_max w
∧ ∃ evs, trace (forward self env1 g lambda_max w).2 = trace w ++ evs
       ∧ Forall (λ e, is_estimate e = false ∧ is_warning e = false) evs.
Proof.
intros Hne. split.
- by destruct lambda_max.
- by destruct (emits_forward (λ e, is_estimate e = false ∧ is_warning e = false)
                 self env1 g lambda_max) with (w := w) as (_ & _ & ?).
Qed.

(** C5: a layer of order 1 does no message passing; what it returns is the
    activation of the linear projection of [feat], and two graphs with the
    same batch of node sets give the same call. *)
Theorem order_one_ignores_edges self env g g' (lambda_max : lambda_arg F) w :
_k self = 1 →
batch_num_nodes g' = batch_num_nodes g →
(lambda_max = LNone → laplacian_lambda_max env g' = laplacian_lambda_max env g) →
forward self env g' lambda_max w = forward self env g lambda_max w
∧ (∀ out, (forward self env g lambda_max w).1 = Ok out →
     ∃ y, linear (linear_weight w) (linear_bias w) (feat_tensor w) = Ok y
        ∧ out = activate self y)
∧ (∀ env' (lambda_max' : lambda_arg F) out out',
     (forward self env g lambda_max w).1 = Ok out →
     (forward self env' g' lambda_max' w).1 = Ok out' →
     out = out')
∧ ∃ evs, trace (forward self env g lambda_max w).2 = trace w ++ evs
       ∧ Forall (λ e, is_update_all e = false) evs.
Proof.
intros Hk Hb He.
assert (Hout : ∀ env0 g0 (lam0 : lambda_arg F) out,
          (forward self env0 g0 lam0 w).1 = Ok out →
          ∃ y, linear (linear_weight w) (linear_bias w) (feat_tensor w) = Ok y
             ∧ out = activate self y); [|split; [|split; [by apply Hout|split]]].
4:{ destruct (emits_forward (λ e, is_update_all e = false) self env g lambda_max)
      with (w := w) as (_ & _ & ?); [lia|done|done]. }
3:{ intros env' lam' out out' H1 H2.
    destruct (Hout _ _ _ _ H1) as (y & Hy & ->).
    destruct (Hout _ _ _ _ H2) as (y' & Hy' & ->). congruence. }
2:{ unfold forward, forward_body. rewrite Hk.
    assert (re_norm_of env g' lambda_max = re_norm_of env g lambda_max) as ->; [|done].
    unfold re_norm_of, broadcast_nodes, batch_size. rewrite Hb.
    destruct lambda_max; try done.
    unfold default_lambda_max. by rewrite He. }
intros env0 g0 lam0 out. unfold forward, forward_body, local_scope. rewrite Hk.
unfold mbind, M_bind, bind, gets, chebyshev_basis. simpl.
destruct (emits_re_norm_of (λ _, True) env0 g0 lam0) with (w := w)
  as ((_ & Ew & Eb) & _); [done|].
destruct (re_norm_of env0 g0 lam0 w) as [[r|e] w1]; simpl in *; [|done].
rewrite Ew, Eb. unfold lift.
destruct (linear (linear_weight w) (linear_bias w) (feat_tensor w)) as [y|e];
  [|done].
intros Hres. exists y. split; [done|]. unfold activate.
destruct (activation self); by simplify_eq/=.
Qed.
End Properties.


(** ** Exact arithmetic: the layer over the real numbers *)
Section Reals.
Implicit Types (g : Graph) (w : World R) (dv rv : list R).

(** The entry of [D_invsqrt] for a node of in-degree [d]. *)
Definition inv_sqrt_degree (d : nat) : R := Rpower (Rmax (INR d) 1) (- (1 / 2)).

Lemma clamped_degree_ge_1 (d : nat) : (1 <= Rmax (INR d) 1)%R.
Proof. apply Rmax_r. Qed.

Lemma inv_sqrt_degree_bounds (d : nat) : (0 < inv_sqrt_degree d <= 1)%R.
Proof.
unfold inv_sqrt_degree, Rpower. split; [apply exp_pos|].
assert (Hln : (0 <= ln (Rmax (INR d) 1))%R).
{ destruct (Rmax_r (INR d) 1) as [Hlt|<-].
  - left. rewrite <- ln_1. apply ln_increasing; lra.
  - rewrite ln_1. lra. }
destruct (Req_dec (ln (Rmax (INR d) 1)) 0) as [->|Hne].
- rewrite Rmult_0_r, exp_0. lra.
- pose proof (exp_increasing (- (1 / 2) * ln (Rmax (INR d) 1)) 0) as Hexp.
  rewrite exp_0 in Hexp. left. apply Hexp. nra.
Qed.

Lemma inv_sqrt_degree_isolated : inv_sqrt_degree 0 = 1%R.
Proof.
unfold inv_sqrt_degree. simpl. rewrite Rmax_right by lra.
unfold Rpower. by rewrite ln_1, Rmult_0_r, exp_0.
Qed.

(** The sum of a list of reals. *)
Definition Rsum (l : list R) : R := foldr Rplus 0%R l.

Lemma Rsum_ext {A} (f h : A → R) (l : list A) :
(∀ a, a ∈ l → f a = h a) → Rsum (map f l) = Rsum (map h l).
Proof.
induction l as [|a l IH]; intros H; simpl; [done|].
rewrite H by left. rewrite IH; [done|]. intros b Hb. apply H. by right.
Qed.

Lemma Rsum_plus {A} (f h : A → R) (l : list A) :
Rsum (map (λ a, f a + h a)%R l) = (Rsum (map f l) + Rsum (map h l))%R.
Proof. induction l as [|a l IH]; simpl; [lra|]. rewrite IH. lra. Qed.

Lemma Rsum_scale {A} (c : R) (f : A → R) (l : list A) :
Rsum (map (λ a, c * f a)%R l) = (c * Rsum (map f l))%R.
Proof. induction l as [|a l IH]; simpl; [lra|]. rewrite IH. lra. Qed.

Lemma Rsum_zero {A} (l : list A) : Rsum (map (λ _, 0%R) l) = 0%R.
Proof. induction l as [|a l IH]; simpl; [done|]. rewrite IH. lra. Qed.

(** A sum over the nodes that is non-zero at one node only. *)
Lemma Rsum_single (n a : nat) (c : R) :
a < n →
Rsum (map (λ u, if decide (u = a) then c else 0%R) (seq 0 n)) = c.
Proof.
intros Ha. replace n with (a + S (n - S a)) by lia.
rewrite seq_app, map_app. simpl.
assert (Happ : ∀ l1 l2, Rsum (l1 ++ l2) = (Rsum l1 + Rsum l2)%R).
{ intros l1 l2. induction l1 as [|x l1 IH]; simpl; [lra|]. rewrite IH. lra. }
rewrite Happ. simpl. rewrite decide_True by done.
rewrite (Rsum_ext _ (λ _, 0%R)), Rsum_zero.
2:{ intros u Hu. apply elem_of_seq in Hu. rewrite decide_False by lia. done. }
rewrite (Rsum_ext _ (λ _, 0%R)), Rsum_zero.
2:{ intros u Hu. apply elem_of_seq in Hu. rewrite decide_False by lia. done. }
lra.
Qed.
(** C4: every entry of the degree normalization is the clamped in-degree
    to the power -1/2; the clamped degree is at least 1, so the entry is a
    real in (0, 1], and the entry of an isolated node is 1. *)
Theorem D_invsqrt_clamped g :
D_invsqrt_of (F:=R) g
  = map (λ v, [Rpower (Rmax (INR (in_degree g v)) 1) (- (1 / 2))])
        (seq 0 (num_nodes g))
∧ Forall (λ v, (1 <= Rmax (INR (in_degree g v)) 1)%R
               ∧ (0 < inv_sqrt_degree (in_degree g v) <= 1)%R
               ∧ (in_degree g v = 0 → inv_sqrt_degree (in_degree g v) = 1%R))
         (seq 0 (num_nodes g)).
Proof.
split.
- unfold D_invsqrt_of, unsqueeze_last, in_degrees. by rewrite !map_map.
- apply Forall_forall. intros v _. split; [apply clamped_degree_ge_1|].
  split; [apply inv_sqrt_degree_bounds|].
  intros ->. apply inv_sqrt_degree_isolated.
Qed.

(** *** The normalized adjacency operator *)

(** The number of edges from [u] to [v]. *)
Definition adjacency g (v u : nat) : nat :=
length (filter (λ e, e = (u, v)) (edges g)).

(** The entry (v, u) of D^-1/2 A D^-1/2 for the diagonal [dv]. *)
Definition norm_adj g dv (v u : nat) : R :=
(nth v dv 0 * INR (adjacency g v u) * nth u dv 0)%R.

(** The product of an (n, n) matrix, given by its entries, with an (n, m)
    tensor. *)
Definition mat_apply (n m : nat) (A : nat → nat → R) (x : mat R) : mat R :=
map (λ v, map (λ j, Rsum (map (λ u, A v u * nth j (nth u x []) 0)%R (seq 0 n)))
              (seq 0 m))
    (seq 0 n).

Lemma list_as_map_nth {A} (d : A) (l : list A) :
l = map (λ j, nth j l d) (seq 0 (length l)).
Proof.
apply list_eq. intros i. rewrite list_lookup_fmap.
destruct (decide (i < length l)) as [Hi|Hi].
- rewrite lookup_seq_lt by done. simpl.
  apply lookup_lt_is_Some_2 in Hi as [r Hr].
  by rewrite (nth_lookup_Some _ _ _ _ Hr).
- rewrite lookup_seq_ge by lia. simpl. apply lookup_ge_None. lia.
Qed.

Lemma nth_zip_with_plus (a b : list R) (j : nat) :
j < length a → j < length b →
nth j (zip_with Rplus a b) 0%R = (nth j a 0 + nth j b 0)%R.
Proof.
revert b j. induction a as [|x a IH]; intros [|y b] [|j] Ha Hb; simpl in *;
  try lia; [done|]. apply IH; lia.
Qed.

(** The entries of a sum of rows are the sums of the entries. *)
Lemma sum_rows_entries (m : nat) (msgs : list (list R)) :
Forall (λ r, length r = m) msgs →
sum_rows m msgs = map (λ j, Rsum (map (λ r, nth j r 0%R) msgs)) (seq 0 m).
Proof.
intros Hm. unfold sum_rows.
assert (Hgen : ∀ acc, length acc = m →
  foldl (zip_with (fadd (F:=R))) acc msgs
  = map (λ j, nth j acc 0 + Rsum (map (λ r, nth j r 0) msgs))%R (seq 0 m)).
{ induction Hm as [|r msgs Hr _ IH]; intros acc Hacc; simpl.
  - rewrite (list_as_map_nth 0%R acc) at 1. rewrite Hacc.
    apply map_ext. intros j. lra.
  - rewrite IH by (rewrite length_zip_with; lia).
    apply map_ext_in. intros j Hj. apply in_seq in Hj.
    rewrite nth_zip_with_plus by lia. simpl. lra. }
rewrite Hgen by apply length_replicate.
apply map_ext_in. intros j Hj. apply in_seq in Hj.
assert (Hrep : nth j (replicate m (of_nat (F:=R) 0)) 0%R = 0%R).
{ apply nth_lookup_Some, lookup_replicate_2. lia. }
rewrite Hrep. lra.
Qed.

(** A sum over the edges that arrive at [v] is a sum over all nodes,
    weighted by the adjacency matrix. *)
Lemma Rsum_in_neighbours g (v : nat) (f : nat → R) :
wf_graph g = true →
Rsum (map f (in_neighbours g v))
= Rsum (map (λ u, INR (adjacency g v u) * f u)%R (seq 0 (num_nodes g))).
Proof.
intros Hwf.
assert (Hsrc : Forall (λ e, e.1 < num_nodes g) (edges g)).
{ apply Forall_forall. intros [a b] Hab. by apply (wf_graph_edges g a b). }
unfold in_neighbours, adjacency. revert Hsrc. generalize (num_nodes g) as n.
intros n. clear Hwf. induction (edges g) as [|[a b] es IH]; intros Hsrc.
- simpl. rewrite (Rsum_ext _ (λ _, 0%R)); [by rewrite Rsum_zero|].
  intros u _. simpl. lra.
- apply Forall_cons in Hsrc as [Ha Hsrc]. simpl in Ha.
  rewrite filter_cons. simpl. destruct (decide (b = v)) as [->|Hb].
  + simpl. rewrite IH by done. symmetry.
    rewrite (Rsum_ext
               (λ u, INR (length (filter (λ e, e = (u, v)) ((a, v) :: es))) * f u)%R
               (λ u, (if decide (u = a) then f a else 0)
                     + INR (length (filter (λ e, e = (u, v)) es)) * f u)%R).
    * by rewrite Rsum_plus, Rsum_single.
    * intros u _. rewrite filter_cons.
      destruct (decide (u = a)) as [->|Hu].
      -- rewrite decide_True by done.
         change (length (_ :: ?l)) with (S (length l)). rewrite S_INR. lra.
      -- rewrite decide_False by congruence. lra.
  + rewrite IH by done. apply Rsum_ext. intros u _.
    rewrite filter_cons, decide_False by congruence. done.
Qed.
Lemma ncols_shape {F} (n m : nat) (x : mat F) :
shape n m x → 0 < n → ncols x = m.
Proof.
intros [Lx Hx] Hn. destruct x as [|r x]; simpl in *; [lia|].
by apply Forall_cons in Hx as [? _].
Qed.

Lemma nth_nth_lookup (x : list (list R)) (u j : nat) (r : list R) (a : R) :
x !! u = Some r → r !! j = Some a → nth j (nth u x []) 0%R = a.
Proof.
intros Hr Ha. rewrite (nth_lookup_Some _ _ _ _ Hr). by apply nth_lookup_Some.
Qed.

Lemma mat_col_entry (n m : nat) (x : mat R) dv (u j : nat) :
shape n m x → length dv = n → u < n → j < m →
nth j (nth u (mat_col Rmult x dv) []) 0%R
= (nth j (nth u x []) 0 * nth u dv 0)%R.
Proof.
intros [Lx Hx] Ld Hu Hj.
assert (is_Some (x !! u)) as [r Hr] by (apply lookup_lt_is_Some_2; lia).
assert (is_Some (dv !! u)) as [s Hs] by (apply lookup_lt_is_Some_2; lia).
assert (Lr : length r = m) by apply (Forall_lookup_1 _ _ _ _ Hx Hr).
assert (is_Some (r !! j)) as [a Ha] by (apply lookup_lt_is_Some_2; lia).
rewrite (nth_nth_lookup x u j r a Hr Ha), (nth_lookup_Some _ _ _ _ Hs).
apply (nth_nth_lookup _ u j (map (λ b, b * s)%R r)).
- unfold mat_col. apply lookup_zip_with_Some. by exists r, s.
- by rewrite list_lookup_fmap, Ha.
Qed.

Lemma mat_col_map_seq (n : nat) (G : nat → list R) dv :
length dv = n →
mat_col Rmult (map G (seq 0 n)) dv
= map (λ v, map (λ a, a * nth v dv 0)%R (G v)) (seq 0 n).
Proof.
intros Ld. apply list_eq. intros i. unfold mat_col.
rewrite lookup_zip_with, !list_lookup_fmap.
destruct (decide (i < n)) as [Hi|Hi].
- rewrite lookup_seq_lt by done. simpl.
  assert (is_Some (dv !! i)) as [s Hs] by (apply lookup_lt_is_Some_2; lia).
  rewrite Hs. simpl. by rewrite (nth_lookup_Some _ _ _ _ Hs).
- by rewrite lookup_seq_ge by lia.
Qed.

(** The value of [unnLaplacian] is the normalized adjacency operator
    applied to [x]. *)
Lemma lap_is_norm_adj g (m : nat) dv (x : mat R) :
wf_graph g = true → shape (num_nodes g) m x → length dv = num_nodes g →
lap g dv x = mat_apply (num_nodes g) m (norm_adj g dv) x.
Proof.
intros Hwf Hx Ld. unfold lap, mat_apply, copy_u_sum.
set (y := mat_col fmul x dv).
assert (Hy : shape (num_nodes g) m y) by (by apply shape_mat_col).
change (fmul (F:=R)) with Rmult. rewrite mat_col_map_seq by done.
apply map_ext_in. intros v Hv. apply in_seq in Hv.
rewrite (ncols_shape _ m y Hy) by lia.
rewrite sum_rows_entries; cycle 1.
{ apply Forall_map, Forall_forall. intros u Hu. simpl.
  apply (in_neighbours_lt g u v Hwf) in Hu.
  destruct Hy as [Ly Hy'].
  assert (is_Some (y !! u)) as [r Hr] by (apply lookup_lt_is_Some_2; lia).
  rewrite (nth_lookup_Some _ _ _ _ Hr).
  apply (Forall_lookup_1 _ _ _ _ Hy' Hr). }
rewrite map_map. apply map_ext_in. intros j Hj. apply in_seq in Hj.
rewrite map_map, (Rsum_in_neighbours g v _ Hwf).
change (fmul (F:=R)) with Rmult.
rewrite Rmult_comm, <- Rsum_scale. apply Rsum_ext. intros u Hu.
apply elem_of_seq in Hu. unfold y, norm_adj.
change (fmul (F:=R)) with Rmult.
rewrite (mat_col_entry (num_nodes g) m x dv u j) by (done || lia). ring.
Qed.

(** C3: [unnLaplacian] multiplies [x] by [D_invsqrt], sums along the edges
    what the sources hold, multiplies the sums by [D_invsqrt] again, and
    what it returns is D^-1/2 A D^-1/2 applied to [x]. *)
Theorem unnLaplacian_is_normalized_adjacency g (m : nat) dv (x : mat R) w :
wf_graph g = true →
is_shape (num_nodes g) m x = true →
length dv = num_nodes g →
unnLaplacian x (unsqueeze_last dv) g w
  = (Ok (mat_col Rmult (copy_u_sum g (mat_col Rmult x dv)) dv), after_laps 1 w)
∧ t_mul x (unsqueeze_last dv) = Ok (mat_col Rmult x dv)
∧ copy_u_sum g (mat_col Rmult x dv)
  = map (λ v, sum_rows (ncols (mat_col Rmult x dv))
                (map (λ u, nth u (mat_col Rmult x dv) []) (in_neighbours g v)))
        (seq 0 (num_nodes g))
∧ mat_col Rmult (copy_u_sum g (mat_col Rmult x dv)) dv
  = mat_apply (num_nodes g) m (norm_adj g dv) x.
Proof.
intros Hwf Hx%is_shape_spec Ld.
split; [|split; [|split]].
- exact (unnLaplacian_run g dv x w (proj1 Hx) Ld).
- apply (broadcast2_mat_col (F:=R)). destruct Hx. congruence.
- reflexivity.
- exact (lap_is_norm_adj g m dv x Hwf Hx Ld).
Qed.
(** *** The recurrence, as the specification states it *)

Definition zip3 {A B C D} (f : A → B → C → D)
  (a : list A) (b : list B) (c : list C) : list D :=
zip_with (λ ab c, f ab.1 ab.2 c) (zip a b) c.

(** X_1 = -re_norm * h + X_0 * (re_norm - 1), with [h = unnLaplacian(X_0)]
    and the [re_norm] of each node in [rv]. *)
Definition X_1_spec rv (h x0 : mat R) : mat R :=
zip3 (λ r hrow xrow, zip_with (λ hv xv, - r * hv + xv * (r - 1))%R hrow xrow)
     rv h x0.

(** X_i = -2 re_norm * h + 2 (re_norm - 1) * X_(i-1) - X_(i-2), with
    [h = unnLaplacian(X_(i-1))]. *)
Definition X_i_spec rv (h x1 x0 : mat R) : mat R :=
zip_with (λ rh xx, zip3 (λ hv x1v x0v,
                           - 2 * rh.1 * hv + 2 * (rh.1 - 1) * x1v - x0v)%R
                        rh.2 xx.1 xx.2)
         (zip rv h) (zip x1 x0).

Fixpoint X_spec g dv rv (feat : mat R) (i : nat) : mat R :=
match i with
| 0 => feat
| S j =>
    match j with
    | 0 => X_1_spec rv (lap g dv feat) feat
    | S k =>
        X_i_spec rv (lap g dv (X_spec g dv rv feat j))
                 (X_spec g dv rv feat j) (X_spec g dv rv feat k)
    end
end.

Lemma X_1_of_spec g dv rv (x0 : mat R) :
X_1_of g dv rv x0 = X_1_spec rv (lap g dv x0) x0.
Proof.
unfold X_1_of, X_1_spec, zip3, mat_mat, col_mat, mat_col.
generalize (lap g dv x0) as h. intros h. revert h x0.
induction rv as [|r rv IH]; intros [|hr h] [|xr x0]; simpl; try done.
f_equal; [|apply IH].
rewrite zip_with_fmap_l, zip_with_fmap_r. done.
Qed.

Lemma X_i_row (r : R) (hr x1r x0r : list R) :
zip_with Rminus
  (zip_with Rplus (map (Rmult (- (1 + 1) * r)) hr)
     (map (λ x, x * (r - 1))%R (map (λ x, x * (1 + 1))%R x1r)))
  x0r
= zip3 (λ hv x1v x0v, - 2 * r * hv + 2 * (r - 1) * x1v - x0v)%R hr x1r x0r.
Proof.
unfold zip3. revert x1r x0r.
induction hr as [|hv hr IH]; intros [|x1v x1r] [|x0v x0r]; simpl; try done.
f_equal; [ring|apply IH].
Qed.

Lemma X_i_of_spec g dv rv (x1 x0 : mat R) :
X_i_of g dv rv x1 x0 = X_i_spec rv (lap g dv x1) x1 x0.
Proof.
unfold X_i_of, X_i_spec, mat_mat, col_mat, mat_col, s_mul_r, t_map.
generalize (lap g dv x1) as h. intros h. revert h x1 x0.
induction rv as [|r rv IH]; intros [|hr h] [|x1r x1] [|x0r x0]; simpl; try done.
f_equal; [|apply IH].
rewrite map_map. rewrite <- X_i_row. by rewrite map_map.
Qed.

Lemma cheb_tail_spec g dv rv (feat : mat R) (n i : nat) :
cheb_tail g dv rv n (X_spec g dv rv feat (S i)) (X_spec g dv rv feat i)
= map (X_spec g dv rv feat) (seq (S (S i)) n).
Proof.
revert i. induction n as [|n IH]; intros i; [done|].
cbn [cheb_tail seq map]. rewrite X_i_of_spec.
change (X_i_spec rv (lap g dv (X_spec g dv rv feat (S i)))
          (X_spec g dv rv feat (S i)) (X_spec g dv rv feat i))
  with (X_spec g dv rv feat (S (S i))).
f_equal. apply IH.
Qed.

Lemma cheb_terms_spec g dv rv (feat : mat R) (k : nat) :
cheb_terms k g dv rv feat = map (X_spec g dv rv feat) (seq 0 (Nat.max k 1)).
Proof.
unfold cheb_terms. destruct (1 <? k) eqn:E.
- apply Nat.ltb_lt in E. replace (Nat.max k 1) with (S (S (k - 2))) by lia.
  cbn [seq map]. rewrite X_1_of_spec.
  change (X_1_spec rv (lap g dv feat) feat) with (X_spec g dv rv feat 1).
  do 2 f_equal. apply (cheb_tail_spec g dv rv feat (k - 2) 0).
- apply Nat.ltb_ge in E. replace (Nat.max k 1) with 1 by lia. done.
Qed.

(** C1: [forward] builds the Chebyshev basis by the recurrence: the
    concatenation it computes is that of X_0, ..., X_(k-1), where X_0 is
    [feat], X_1 = -re_norm * unnLaplacian(X_0) + X_0 * (re_norm - 1) and
    X_i = -2 re_norm * unnLaplacian(X_(i-1)) + 2 (re_norm - 1) * X_(i-1)
    - X_(i-2). *)
Theorem chebyshev_recurrence g (m k : nat) dv rv (feat : mat R) w :
wf_graph g = true →
is_shape (num_nodes g) m feat = true →
length dv = num_nodes g →
length rv = num_nodes g →
let X := X_spec g dv rv feat in
chebyshev_basis k g (unsqueeze_last dv) (unsqueeze_last rv) feat w
  = (Ok (hcat_rows (num_nodes g) (map X (seq 0 (Nat.max k 1)))),
     after_laps (k - 1) w)
∧ X 0 = feat
∧ X 1 = X_1_spec rv (lap g dv (X 0)) (X 0)
∧ (∀ i, X (S (S i)) = X_i_spec rv (lap g dv (X (S i))) (X (S i)) (X i))
∧ (∀ x, is_shape (num_nodes g) m x = true →
        unnLaplacian x (unsqueeze_last dv) g w = (Ok (lap g dv x), after_laps 1 w)).
Proof.
intros Hwf Hf%is_shape_spec Ld Lr X. subst X.
split; [|split; [done|split; [done|split; [done|]]]].
- rewrite <- cheb_terms_spec.
  exact (chebyshev_basis_run g m dv rv Hwf Ld Lr k feat w Hf).
- intros x [Lx _]%is_shape_spec. by apply unnLaplacian_run.
Qed.
End Reals.

(** ** Determinism, and where it ends *)
Section Determinism.
Context {F : Type} `{!Scalar F}.
Implicit Types (g : Graph) (w : World F) (self : ChebConv F).

(** The value of a call is a function of the graph, [feat], [lambda_max],
    the parameters and the environment: it does not depend on what the
    node frame holds or on the trace. *)
Lemma forward_value_determined self env g (lambda_max : lambda_arg F) w1 w2 :
same_objects w1 w2 →
(forward self env g lambda_max w1).1 = (forward self env g lambda_max w2).1.
Proof. intros H. by apply oblivious_forward. Qed.

(** A second call with the same arguments returns what the first did. *)
Lemma forward_twice self env g (lambda_max : lambda_arg F) w :
(forward self env g lambda_max (forward self env g lambda_max w).2).1
= (forward self env g lambda_max w).1.
Proof.
apply forward_value_determined.
destruct (emits_forward (λ _, True) self env g lambda_max) with (w := w)
  as ((Ef & Ew & Eb) & _); [done..|].
unfold same_objects. by rewrite Ef, Ew, Eb.
Qed.

(** The uninitialised memory matters only on the fallback path: with the
    same estimator, two calls agree unless [lambda_max] is [None] and the
    estimator raises. *)
Lemma forward_deterministic_unless_fallback self env1 env2 g
  (lambda_max : lambda_arg F) w1 w2 :
laplacian_lambda_max env1 g = laplacian_lambda_max env2 g →
(lambda_max = LNone → laplacian_lambda_max env1 g ≠ None) →
same_objects w1 w2 →
(forward self env1 g lambda_max w1).1 = (forward self env2 g lambda_max w2).1.
Proof.
intros He Hn Hw.
assert (forward self env1 g lambda_max = forward self env2 g lambda_max) as ->.
{ unfold forward, forward_body, re_norm_of. destruct lambda_max; try done.
  unfold default_lambda_max. rewrite <- He.
  destruct (laplacian_lambda_max env1 g); [done|]. by destruct Hn. }
by apply forward_value_determined.
Qed.
End Determinism.

(** ** Concrete calls *)

(** A directed cycle on three nodes: every in-degree is 1. *)
Definition cycle3 : Graph :=
{| num_nodes := 3; edges := [(0, 1); (1, 2); (2, 0)]; batch_num_nodes := [3] |}.

(** The same nodes with the edges reversed. *)
Definition cycle3_reversed : Graph :=
{| num_nodes := 3; edges := [(1, 0); (2, 1); (0, 2)]; batch_num_nodes := [3] |}.

(** A batch of two graphs, each a pair of nodes joined both ways. *)
Definition two_pairs : Graph :=
{| num_nodes := 4; edges := [(0, 1); (1, 0); (2, 3); (3, 2)];
   batch_num_nodes := [2; 2] |}.

(** Two nodes and one edge: node 0 has in-degree 0. *)
Definition one_edge : Graph :=
{| num_nodes := 2; edges := [(0, 1)]; batch_num_nodes := [2] |}.

(** An estimator that always raises, over memory that holds [u]. *)
Definition raising_env {F} (u : nat → F) : Env F := mkEnv (λ _, None) u.

Definition layer3 : ChebConv float := mkChebConv 3 1 3 None.
Definition layer2 : ChebConv float := mkChebConv 2 1 1 None.
Definition layer1 : ChebConv float := mkChebConv 1 1 1 None.

Definition world3 : World float :=
mkWorld ∅ [[1]; [2]; [3]]%float
        [[1; 0; 0]; [0; 1; 0]; [0; 0; 1]]%float None [].

Definition world4 : World float :=
mkWorld (<["h" := [[9]]%float]> ∅) [[1]; [2]; [3]; [4]]%float
        [[1; 1]]%float (Some [0.5]%float) [].

Definition world1 : World float :=
mkWorld ∅ [[1]; [2]; [3]]%float [[2]]%float None [].

Definition world3R : World R :=
mkWorld ∅ [[1]; [2]; [3]]%R [[1; 0; 0]; [0; 1; 0]; [0; 0; 1]]%R None [].

(** The three-node cycle, order 3, lambda_max = 2: X_1 = -A x and
    X_2 = 2 A A x - x, next to X_0 = x in the rows of the output. *)
Example forward_cycle3 :
(forward layer3 (raising_env (λ _, 0%float)) cycle3 (LList [2%float]) world3).1
= Ok [[1; -3; 3]; [2; -1; 4]; [3; -2; -1]]%float.
Proof. vm_compute. reflexivity. Qed.

(** A node without incoming edges gets the entry 1, in floats. *)
Example D_invsqrt_isolated_node :
D_invsqrt_of (F:=float) one_edge = [[1]; [1]]%float.
Proof. vm_compute. reflexivity. Qed.

(** C2 (the code at the failing input): when the estimator raises, the
    warning is emitted and [lambda_max] becomes [th.Tensor(2)], a tensor of
    two uninitialised entries: on a batch of two graphs [re_norm] is 2 over
    whatever the memory holds, not 2 / 2, and the output follows it. *)
Theorem fallback_reads_uninitialized_memory :
(∀ (u : nat → float) (w : World float),
   re_norm_of (raising_env u) two_pairs LNone w
   = (Ok (unsqueeze_last (map (fdiv (of_nat 2)) [u 0; u 0; u 1; u 1])),
      emit (EvWarning "RuntimeWarning"
              "Largest eigonvalue not found, using default value 2 for lambda_max")
           (emit EvEstimate w)))
∧ (re_norm_of (raising_env (λ i, if i =? 0 then 1%float else 4%float))
     two_pairs LNone world4).1
  = Ok [[2]; [2]; [0.5]; [0.5]]%float
∧ (re_norm_of (raising_env (λ _, 0%float)) two_pairs (LList [2; 2]%float) world4).1
  = Ok [[1]; [1]; [1]; [1]]%float
∧ (forward layer2 (raising_env (λ i, if i =? 0 then 1%float else 4%float))
     two_pairs LNone world4).1
  = Ok [[-1.5]; [2.5]; [0]; [1]]%float
∧ (forward layer2 (raising_env (λ _, 0%float)) two_pairs (LList [2; 2]%float)
     world4).1
  = Ok [[-0.5]; [1.5]; [-0.5]; [1.5]]%float
∧ (forward layer2 (raising_env (λ _, 0%float)) cycle3 LNone world3).1
  = Raise DGLError.
Proof.
split; [done|]. repeat split; vm_compute; reflexivity.
Qed.

(** C9 (the code at the failing input): two calls in a row with the same
    graph, [feat], [lambda_max = None] and parameters, and the same raising
    estimator, return different tensors when the uninitialised memory
    differs. *)
Theorem fallback_breaks_determinism :
let call1 := forward layer2 (raising_env (λ _, 2%float)) two_pairs LNone world4 in
let call2 := forward layer2 (raising_env (λ i, if i =? 0 then 1%float else 4%float))
               two_pairs LNone call1.2 in
call1.1 = Ok [[-0.5]; [1.5]; [-0.5]; [1.5]]%float
∧ call2.1 = Ok [[-1.5]; [2.5]; [0]; [1]]%float
∧ call1.1 ≠ call2.1
∧ feat_tensor call1.2 = feat_tensor world4
∧ linear_weight call1.2 = linear_weight world4
∧ linear_bias call1.2 = linear_bias world4
∧ ndata call1.2 = ndata world4.
Proof.
assert (H1 : (forward layer2 (raising_env (λ _, 2%float)) two_pairs LNone world4).1
             = Ok [[-0.5]; [1.5]; [-0.5]; [1.5]]%float)
  by (vm_compute; reflexivity).
assert (H2 : (forward layer2
                (raising_env (λ i, if i =? 0 then 1%float else 4%float))
                two_pairs LNone
                (forward layer2 (raising_env (λ _, 2%float)) two_pairs LNone
                   world4).2).1
             = Ok [[-1.5]; [2.5]; [0]; [1]]%float)
  by (vm_compute; reflexivity).
cbv zeta. split; [exact H1|]. split; [exact H2|]. split.
- rewrite H1, H2. intros E.
  pose proof (f_equal (λ r : result (mat float),
                         match r with
                         | Ok ((x :: _) :: _) => PrimFloat.eqb x (-1.5)%float
                         | _ => false
                         end) E) as E'.
  vm_compute in E'. discriminate E'.
- destruct (emits_forward (λ _, True) layer2 (raising_env (λ _, 2%float))
              two_pairs LNone) with (w := world4) as ((? & ? & ?) & _); [done..|].
  repeat split; try done.
Qed.

(** *** The theorems at concrete calls *)

Lemma chebyshev_recurrence_witness :
chebyshev_basis 3 cycle3 (unsqueeze_last [1; 1; 1]%R) (unsqueeze_last [1; 1; 1]%R)
  (feat_tensor world3R) world3R
= (Ok (hcat_rows 3 (map (X_spec cycle3 [1; 1; 1]%R [1; 1; 1]%R (feat_tensor world3R))
                        (seq 0 3))),
   after_laps 2 world3R).
Proof.
exact (proj1 (chebyshev_recurrence cycle3 1 3 [1; 1; 1]%R [1; 1; 1]%R
                (feat_tensor world3R) world3R eq_refl eq_refl eq_refl eq_refl)).
Defined.

Lemma unnLaplacian_is_normalized_adjacency_witness :
unnLaplacian (feat_tensor world3R) (unsqueeze_last [1; 1; 1]%R) cycle3 world3R
= (Ok (mat_col Rmult (copy_u_sum cycle3 (mat_col Rmult (feat_tensor world3R)
                                                  [1; 1; 1]%R))
               [1; 1; 1]%R),
   after_laps 1 world3R).
Proof.
exact (proj1 (unnLaplacian_is_normalized_adjacency cycle3 1 [1; 1; 1]%R
                (feat_tensor world3R) world3R eq_refl eq_refl eq_refl)).
Defined.

Lemma order_one_ignores_edges_witness :
forward layer1 (raising_env (λ _, 0%float)) cycle3_reversed LNone world1
= forward layer1 (raising_env (λ _, 0%float)) cycle3 LNone world1.
Proof.
exact (proj1 (order_one_ignores_edges layer1 (raising_env (λ _, 0%float))
                cycle3 cycle3_reversed LNone world1 eq_refl eq_refl
                (λ _, eq_refl))).
Defined.

Lemma forward_shapes_witness :
length (cheb_terms 3 cycle3 (concat (D_invsqrt_of cycle3))
          (re_norm_values cycle3 [2%float]) (feat_tensor world3)) = 3.
Proof.
exact (proj1 (forward_shapes layer3 (raising_env (λ _, 0%float)) cycle3
                (LList [2%float]) [2%float] world3 eq_refl eq_refl)).
Defined.

Lemma supplied_lambda_max_skips_estimator_witness :
forward layer2 (raising_env (λ _, 0%float)) two_pairs (LList [2; 2]%float) world4
= forward layer2 (mkEnv (λ _, Some [3; 3]%float) (λ _, 1%float)) two_pairs
    (LList [2; 2]%float) world4.
Proof.
refine (proj1 (supplied_lambda_max_skips_estimator layer2
                 (raising_env (λ _, 0%float))
                 (mkEnv (λ _, Some [3; 3]%float) (λ _, 1%float))
                 two_pairs (LList [2; 2]%float) world4 _)).
discriminate.
Defined.

(** ** Beyond the valid call: construction, rejected arguments, cost *)
Section Calls.
Context {F : Type} `{!Scalar F}.
Implicit Types (g : Graph) (w : World F) (self : ChebConv F).

(** The events of resolving [lambda_max]. *)
Definition lambda_events (lambda_max : lambda_arg F) : list event :=
match lambda_max with LNone => [EvEstimate] | _ => [] end.

(** The world a call leaves when it got as far as the linear projection. *)
Definition world_after self (lambda_max : lambda_arg F) w : World F :=
mkWorld (ndata w) (feat_tensor w) (linear_weight w) (linear_bias w)
        (trace w ++ lambda_events lambda_max
                 ++ replicate (_k self - 1) EvUpdateAll).

Lemma re_norm_of_world env g (lambda_max : lambda_arg F) l w :
resolved_lambda env g lambda_max = Some l → length l = batch_size g →
re_norm_of env g lambda_max w
= (Ok (unsqueeze_last (re_norm_values g l)),
   mkWorld (ndata w) (feat_tensor w) (linear_weight w) (linear_bias w)
           (trace w ++ lambda_events lambda_max)).
Proof.
intros Hl Ll. destruct lambda_max as [|l'|t].
- rewrite (re_norm_of_estimated env g l w Hl Ll). reflexivity.
- rewrite (re_norm_of_supplied env g (LList l') l w Hl Ll).
  destruct w. simpl. by rewrite app_nil_r.
- rewrite (re_norm_of_supplied env g (LTensor t) l w Hl Ll).
  destruct w. simpl. by rewrite app_nil_r.
Qed.

(** A call on a well-formed graph, a [feat] with one row per node and a
    [lambda_max] with one value per graph reaches the linear projection;
    whether it returns is up to the projection. *)
Lemma forward_up_to_linear self env g (lambda_max : lambda_arg F) l d w :
wf_graph g = true →
shape (num_nodes g) d (feat_tensor w) →
resolved_lambda env g lambda_max = Some l →
length l = batch_size g →
forward self env g lambda_max w
= (match linear (linear_weight w) (linear_bias w)
           (hcat_rows (num_nodes g)
              (cheb_terms (_k self) g (concat (D_invsqrt_of g))
                 (re_norm_values g l) (feat_tensor w))) with
   | Ok y => Ok (activate self y)
   | Raise e => Raise e
   end,
   world_after self lambda_max w).
Proof.
intros Hwf Hf Hl Ll.
assert (Lr : length (re_norm_values g l) = num_nodes g).
{ unfold re_norm_values. rewrite length_map. by apply length_per_node. }
pose proof (chebyshev_basis_run g d _ _ Hwf (length_D_invsqrt g) Lr
              (_k self) (feat_tensor w)) as Hbasis.
rewrite <- D_invsqrt_unsqueeze in Hbasis.
unfold forward, forward_body, local_scope, mbind, M_bind, bind, gets.
rewrite (re_norm_of_world env g lambda_max l w Hl Ll).
cbv beta iota. rewrite (Hbasis _ Hf). cbv beta iota.
unfold lift, world_after. cbn [linear_weight linear_bias after_laps].
destruct (linear _ _ _) as [y|e].
- unfold activate, ret, after_laps, set_ndata.
  destruct (activation self); cbn [ndata feat_tensor linear_weight linear_bias trace];
    by rewrite <- app_assoc.
- unfold after_laps, set_ndata.
  cbn [ndata feat_tensor linear_weight linear_bias trace].
  by rewrite <- app_assoc.
Qed.
(** *** Construction *)

(** [nn.Linear(in_features, out_features, bias)]: a weight of shape
    (out_features, in_features) and, when [bias], a bias of [out_features]
    entries. PyTorch draws the initial values at random; here they are the
    functions [init_weight] and [init_bias]. *)
Definition nn_Linear (in_features out_features : nat) (bias : bool)
  (init_weight : nat → nat → F) (init_bias : nat → F)
  : mat F * option (list F) :=
(map (λ o, map (init_weight o) (seq 0 in_features)) (seq 0 out_features),
 if bias then Some (map init_bias (seq 0 out_features)) else None).

(** [F.relu], the default of [activation]. *)
Definition F_relu (a : F) : F := fmax a (of_nat 0).

(** def __init__(self, in_feats, out_feats, k, activation=F.relu, bias=True):
    the layer and the parameters of [self.linear]. *)
Definition init (in_feats out_feats k : nat) (activation : option (F → F))
  (bias : bool) (init_weight : nat → nat → F) (init_bias : nat → F)
  : ChebConv F * (mat F * option (list F)) :=
(mkChebConv k in_feats out_feats activation,
 nn_Linear (k * in_feats) out_feats bias init_weight init_bias).

(** The world of a call on a layer with the parameters [params]. *)
Definition world_of (params : mat F * option (list F))
  (nd : gmap string (mat F)) (feat : mat F) : World F :=
mkWorld nd feat params.1 params.2 [].

Lemma shape_nn_Linear i o bias iw ib :
shape o i (nn_Linear i o bias iw ib).1
∧ bias_fits o (nn_Linear i o bias iw ib).2 = true.
Proof.
unfold nn_Linear. simpl. split; [split|].
- by rewrite length_map, length_seq.
- apply Forall_map, Forall_forall. intros r _. simpl.
  by rewrite length_map, length_seq.
- destruct bias; simpl; [|done].
  rewrite length_map, length_seq. apply Nat.eqb_refl.
Qed.

(** The projection refuses a tensor whose rows have not the width of the
    rows of the weight. *)
Lemma linear_wrong_width (weight : mat F) bias (x : mat F) r wr :
head x = Some r → head weight = Some wr → length r ≠ length wr →
linear weight bias x = Raise ShapeError.
Proof.
intros Hr Hw Hne. destruct x as [|r' x]; simplify_eq/=.
destruct weight as [|wr' weight]; simplify_eq/=.
apply Nat.eqb_neq in Hne. unfold linear. cbn [mapM]. unfold dot at 1.
by rewrite Hne.
Qed.

(** X3: A layer as [__init__] builds it, with [k >= 1] and [in_feats >= 1],
    returns on every well-formed graph and every [feat] of shape
    (N, in_feats) a tensor of shape (N, out_feats), whatever the initial
    parameters. *)
Theorem fresh_layer_accepts_feat in_feats out_feats k act bias iw ib
  env g (lambda_max : lambda_arg F) l nd (feat : mat F) :
1 ≤ k →
1 ≤ in_feats →
wf_graph g = true →
is_shape (num_nodes g) in_feats feat = true →
resolved_lambda env g lambda_max = Some l →
length l = batch_size g →
∃ y, (forward (init in_feats out_feats k act bias iw ib).1 env g lambda_max
        (world_of (init in_feats out_feats k act bias iw ib).2 nd feat)).1
     = Ok y
   ∧ is_shape (num_nodes g) out_feats y = true.
Proof.
intros Hk _ Hwf Hf%is_shape_spec Hl Ll.
set (self := (init in_feats out_feats k act bias iw ib).1).
set (w := world_of (init in_feats out_feats k act bias iw ib).2 nd feat).
assert (Lr : length (re_norm_values g l) = num_nodes g).
{ unfold re_norm_values. rewrite length_map. by apply length_per_node. }
pose proof (shape_cheb_terms g in_feats _ _ Hwf (length_D_invsqrt g) Lr
              k feat Hf) as Hts.
apply shape_hcat_rows in Hts. rewrite length_cheb_terms in Hts by done.
destruct (shape_nn_Linear (k * in_feats) out_feats bias iw ib) as [Hw Hb].
destruct (linear_ok _ _ _ _ _ _ Hw Hb Hts) as (y & Hy & Sy).
rewrite (forward_up_to_linear self env g lambda_max l in_feats w Hwf Hf Hl Ll).
cbn [fst]. change (linear_weight w) with (nn_Linear (k * in_feats) out_feats bias iw ib).1.
change (linear_bias w) with (nn_Linear (k * in_feats) out_feats bias iw ib).2.
change (_k self) with k. change (feat_tensor w) with feat.
rewrite Hy. eexists. split; [reflexivity|].
apply is_shape_spec. unfold activate. destruct (activation self); [|exact Sy].
apply shape_t_map. exact Sy.
Qed.

(** *** Rejected and tolerated arguments *)

(** X4: A layer of order 1 never checks [feat] against the graph: a [feat]
    with any number of rows of the right width is projected and returned,
    with that number of rows. *)
Theorem order_one_takes_any_rows self env g (lambda_max : lambda_arg F) l n w :
_k self = 1 →
is_shape n (_in_feats self) (feat_tensor w) = true →
is_shape (_out_feats self) (_in_feats self) (linear_weight w) = true →
bias_fits (_out_feats self) (linear_bias w) = true →
resolved_lambda env g lambda_max = Some l →
length l = batch_size g →
∃ y, (forward self env g lambda_max w).1 = Ok y
   ∧ is_shape n (_out_feats self) y = true.
Proof.
intros Hk Hf%is_shape_spec Hw%is_shape_spec Hb Hl Ll.
destruct (linear_ok _ _ _ _ _ _ Hw Hb Hf) as (y & Hy & Sy).
unfold forward, forward_body, local_scope, mbind, M_bind, bind, gets.
rewrite (re_norm_of_world env g lambda_max l w Hl Ll).
cbv beta iota. rewrite Hk. unfold chebyshev_basis. cbn [Nat.ltb Nat.leb].
unfold ret, lift. cbn [linear_weight linear_bias]. rewrite Hy.
exists (activate self y). split.
- unfold activate. by destruct (activation self).
- apply is_shape_spec. unfold activate. destruct (activation self); [|exact Sy].
  apply shape_t_map. exact Sy.
Qed.

(** X6: A [feat] of the wrong width is refused by the linear projection, with
    a shape error, only after the [k - 1] rounds of message passing; the
    objects of the caller are as before. *)
Theorem wrong_feature_width_raises self env g (lambda_max : lambda_arg F) l d c w :
wf_graph g = true →
0 < num_nodes g → 0 < _out_feats self → 1 ≤ _k self →
is_shape (num_nodes g) d (feat_tensor w) = true →
is_shape (_out_feats self) c (linear_weight w) = true →
c ≠ _k self * d →
resolved_lambda env g lambda_max = Some l →
length l = batch_size g →
forward self env g lambda_max w
= (Raise ShapeError, world_after self lambda_max w).
Proof.
intros Hwf Hn Ho Hk Hf%is_shape_spec Hw%is_shape_spec Hc Hl Ll.
rewrite (forward_up_to_linear self env g lambda_max l d w Hwf Hf Hl Ll).
assert (Lr : length (re_norm_values g l) = num_nodes g).
{ unfold re_norm_values. rewrite length_map. by apply length_per_node. }
pose proof (shape_cheb_terms g d _ _ Hwf (length_D_invsqrt g) Lr
              (_k self) (feat_tensor w) Hf) as Hts.
apply shape_hcat_rows in Hts. rewrite length_cheb_terms in Hts by done.
destruct Hts as [Lx Hx], Hw as [Lw Hw].
destruct (hcat_rows _ _) as [|r x]; [simpl in Lx; lia|].
destruct (linear_weight w) as [|wr weight]; [simpl in Lw; lia|].
apply Forall_cons in Hx as [Hr _]. apply Forall_cons in Hw as [Hwr _].
erewrite (linear_wrong_width _ _ (r :: x) r wr); [done|done|done|].
congruence.
Qed.

(** X7: On a well-formed graph and a [feat] with one row per node a call does
    exactly [k - 1] rounds of message passing, after the estimate when
    [lambda_max] is [None], whether the projection then accepts the basis
    or not. *)
Theorem forward_message_passing_rounds self env g (lambda_max : lambda_arg F)
  l d w :
wf_graph g = true →
is_shape (num_nodes g) d (feat_tensor w) = true →
resolved_lambda env g lambda_max = Some l →
length l = batch_size g →
trace (forward self env g lambda_max w).2
= trace w ++ lambda_events lambda_max ++ replicate (_k self - 1) EvUpdateAll.
Proof.
intros Hwf Hf%is_shape_spec Hl Ll.
by rewrite (forward_up_to_linear self env g lambda_max l d w Hwf Hf Hl Ll).
Qed.

(** X8: What a call returns does not depend on what the node frame of the
    graph holds before it (a field [h] of the caller included), nor on the
    trace. *)
Theorem forward_ignores_node_frame self env g (lambda_max : lambda_arg F) w
  (nd : gmap string (mat F)) (tr : list event) :
(forward self env g lambda_max
   (mkWorld nd (feat_tensor w) (linear_weight w) (linear_bias w) tr)).1
= (forward self env g lambda_max w).1.
Proof. by apply oblivious_forward. Qed.

(** *** The number of rows through the broadcasting operations *)

Lemma mapM2_length {A B C} (f : A → B → result C) xs ys zs :
mapM2 f xs ys = Ok zs → length zs = Nat.min (length xs) (length ys).
Proof.
revert ys zs. induction xs as [|a xs IH]; intros [|b ys] zs E; simpl in *;
  simplify_eq; try done.
destruct (f a b); simpl in E; [|done].
destruct (mapM2 f xs ys) as [zs'|] eqn:E'; simpl in E; simplify_eq.
simpl. f_equal. by apply IH.
Qed.

(** The operands had the same length, or one of them had length 1. *)
Definition broadcast_lengths (la lb lc : nat) : Prop :=
(la = lb ∧ lc = la) ∨ (la ≠ lb ∧ lb = 1 ∧ lc = la) ∨ (la ≠ lb ∧ la = 1 ∧ lc = lb).

Lemma bcast_dim_length {A B C} (f : A → B → result C) xs ys zs :
bcast_dim f xs ys = Ok zs →
broadcast_lengths (length xs) (length ys) (length zs).
Proof.
unfold broadcast_lengths.
destruct (decide (length xs = length ys)) as [E|E].
- rewrite bcast_dim_same by done. intros Hz%mapM2_length. left. lia.
- destruct ys as [|y [|y' ys]].
  + unfold bcast_dim. destruct xs as [|a [|a' xs]]; simpl in *; try done.
    intros Hz. simplify_eq. simpl. lia.
  + rewrite bcast_dim_one_r. intros Hz%mapM2_length.
    rewrite length_replicate in Hz. simpl in *. lia.
  + destruct xs as [|a [|a' xs]].
    * unfold bcast_dim. simpl. done.
    * rewrite bcast_dim_one_l. intros Hz%mapM2_length.
      rewrite length_replicate in Hz. simpl in *. lia.
    * unfold bcast_dim. apply Nat.eqb_neq in E. rewrite E. done.
Qed.

Lemma broadcast2_length op (a b c : mat F) :
broadcast2 op a b = Ok c → broadcast_lengths (length a) (length b) (length c).
Proof. apply bcast_dim_length. Qed.

Lemma length_D_invsqrt_of g : length (D_invsqrt_of (F:=F) g) = num_nodes g.
Proof.
unfold D_invsqrt_of, unsqueeze_last, in_degrees.
by rewrite !length_map, length_seq.
Qed.

(** X5: A layer of order 2 or more refuses every [feat] that has not one row
    per node of the graph, whatever the other arguments: the first
    multiplication, the node frame or the concatenation raises. *)
Theorem wrong_row_count_raises self env g (lambda_max : lambda_arg F) w :
1 < _k self →
length (feat_tensor w) ≠ num_nodes g →
is_ok (forward self env g lambda_max w).1 = false.
Proof.
intros Hk Hn. apply Nat.ltb_lt in Hk.
unfold forward, forward_body, local_scope, mbind, M_bind, bind, gets.
destruct (re_norm_of env g lambda_max w) as [[r|e] w1]; [|done].
unfold chebyshev_basis. rewrite Hk.
unfold mbind, M_bind, bind. rewrite unnLaplacian_total.
destruct (t_mul (feat_tensor w) (D_invsqrt_of g)) as [y|e] eqn:Ey; [|done].
destruct (length y =? num_nodes g) eqn:Ly; [|done].
apply Nat.eqb_eq in Ly.
destruct (t_mul (copy_u_sum g y) (D_invsqrt_of g)) as [h|e] eqn:Eh; [|done].
unfold lift.
destruct (t_mul (t_neg r) h) as [a|e] eqn:Ea; [|done].
destruct (t_mul (feat_tensor w) (s_sub_r (of_nat 1) r)) as [b|e] eqn:Eb; [|done].
destruct (t_add a b) as [X_1|e] eqn:E1; [|done].
unfold th_cat1.
destruct (length (feat_tensor w) =? length X_1) eqn:Ec; [|done].
exfalso. apply Nat.eqb_eq in Ec.
apply broadcast2_length in Ey, Eh, Ea, Eb, E1.
rewrite length_D_invsqrt_of in Ey, Eh. rewrite length_copy_u_sum in Eh.
unfold t_neg, s_sub_r, t_map in Ea, Eb. rewrite length_map in Ea, Eb.
unfold broadcast_lengths in *. lia.
Qed.
End Calls.

(** ** The operator of the docstring *)
Section Operator.
Implicit Types (g : Graph) (dv rv lam : list R).

(** The entry of row [v], column [j]. *)
Definition entry (x : mat R) (v j : nat) : R := nth j (nth v x []) 0%R.

Lemma nth_map_seq {A} (d : A) (f : nat → A) (n i : nat) :
i < n → nth i (map f (seq 0 n)) d = f i.
Proof.
intros Hi. apply nth_lookup_Some.
by rewrite list_lookup_fmap, lookup_seq_lt.
Qed.

Lemma shape_row n m (x : mat R) v :
shape n m x → v < n → length (nth v x []) = m.
Proof.
intros [Lx Hx] Hv.
assert (is_Some (x !! v)) as [r Hr] by (apply lookup_lt_is_Some_2; lia).
rewrite (nth_lookup_Some _ _ _ _ Hr). apply (Forall_lookup_1 _ _ _ _ Hx Hr).
Qed.

Lemma mat_as_entries n m (x : mat R) :
shape n m x → x = map (λ v, map (λ j, entry x v j) (seq 0 m)) (seq 0 n).
Proof.
intros Hx. etrans; [apply (list_as_map_nth [] x)|].
destruct Hx as [Lx Hx]. rewrite Lx. apply map_ext_in. intros v Hv.
apply in_seq in Hv.
etrans; [apply (list_as_map_nth 0%R)|].
by rewrite (shape_row n m x v) by (by split || lia).
Qed.

(** Two tensors of one shape with the same entries are equal. *)
Lemma mat_ext n m (x y : mat R) :
shape n m x → shape n m y →
(∀ v j, v < n → j < m → entry x v j = entry y v j) → x = y.
Proof.
intros Hx Hy He.
rewrite (mat_as_entries n m x Hx), (mat_as_entries n m y Hy).
apply map_ext_in. intros v Hv. apply in_seq in Hv.
apply map_ext_in. intros j Hj. apply in_seq in Hj. apply He; lia.
Qed.

Lemma entry_lookup (x : list (list R)) v j r a :
x !! v = Some r → r !! j = Some a → entry x v j = a.
Proof. apply nth_nth_lookup. Qed.

Lemma entry_is_lookup n m (x : mat R) v j :
shape n m x → v < n → j < m →
∃ r, x !! v = Some r ∧ r !! j = Some (entry x v j).
Proof.
intros [Lx Hx] Hv Hj.
assert (is_Some (x !! v)) as [r Hr] by (apply lookup_lt_is_Some_2; lia).
assert (Lr : length r = m) by apply (Forall_lookup_1 _ _ _ _ Hx Hr).
assert (is_Some (r !! j)) as [a Ha] by (apply lookup_lt_is_Some_2; lia).
exists r. split; [done|]. by rewrite (entry_lookup x v j r a Hr Ha).
Qed.

Lemma entry_mat_mat op n m (a b : mat R) v j :
shape n m a → shape n m b → v < n → j < m →
entry (mat_mat op a b) v j = op (entry a v j) (entry b v j).
Proof.
intros Ha Hb Hv Hj.
destruct (entry_is_lookup n m a v j Ha Hv Hj) as (ra & Hra & Hea).
destruct (entry_is_lookup n m b v j Hb Hv Hj) as (rb & Hrb & Heb).
apply (entry_lookup _ v j (zip_with op ra rb)).
- unfold mat_mat. apply lookup_zip_with_Some. by exists ra, rb.
- apply lookup_zip_with_Some. by eexists _, _.
Qed.

Lemma entry_col_mat op n m rv (a : mat R) v j :
length rv = n → shape n m a → v < n → j < m →
entry (col_mat op rv a) v j = op (nth v rv 0%R) (entry a v j).
Proof.
intros Lr Ha Hv Hj.
destruct (entry_is_lookup n m a v j Ha Hv Hj) as (ra & Hra & Hea).
assert (is_Some (rv !! v)) as [s Hs] by (apply lookup_lt_is_Some_2; lia).
rewrite (nth_lookup_Some _ _ _ _ Hs).
apply (entry_lookup _ v j (map (op s) ra)).
- unfold col_mat. apply lookup_zip_with_Some. by exists s, ra.
- by rewrite list_lookup_fmap, Hea.
Qed.

Lemma entry_mat_col op n m (a : mat R) rv v j :
shape n m a → length rv = n → v < n → j < m →
entry (mat_col op a rv) v j = op (entry a v j) (nth v rv 0%R).
Proof.
intros Ha Lr Hv Hj.
destruct (entry_is_lookup n m a v j Ha Hv Hj) as (ra & Hra & Hea).
assert (is_Some (rv !! v)) as [s Hs] by (apply lookup_lt_is_Some_2; lia).
rewrite (nth_lookup_Some _ _ _ _ Hs).
apply (entry_lookup _ v j (map (λ e, op e s) ra)).
- unfold mat_col. apply lookup_zip_with_Some. by exists ra, s.
- by rewrite list_lookup_fmap, Hea.
Qed.

Lemma entry_t_map (f : R → R) n m (a : mat R) v j :
shape n m a → v < n → j < m →
entry (t_map f a) v j = f (entry a v j).
Proof.
intros Ha Hv Hj.
destruct (entry_is_lookup n m a v j Ha Hv Hj) as (ra & Hra & Hea).
apply (entry_lookup _ v j (map f ra)).
- unfold t_map. apply list_lookup_fmap_Some. by exists ra.
- by rewrite list_lookup_fmap, Hea.
Qed.

Lemma shape_mat_apply n m A (x : mat R) : shape n m (mat_apply n m A x).
Proof.
unfold mat_apply. split.
- by rewrite length_map, length_seq.
- apply Forall_map, Forall_forall. intros v _. simpl.
  by rewrite length_map, length_seq.
Qed.

Lemma entry_mat_apply n m A (x : mat R) v j :
v < n → j < m →
entry (mat_apply n m A x) v j
= Rsum (map (λ u, A v u * entry x u j)%R (seq 0 n)).
Proof.
intros Hv Hj. unfold entry, mat_apply.
rewrite (nth_map_seq [] _ n v Hv). by rewrite (nth_map_seq 0%R _ m j Hj).
Qed.
(** The entry (v, u) of the rescaled Laplacian of the docstring,
    2 (I - D^-1/2 A D^-1/2) / lambda_max - I, with the [lambda_max] of the
    graph of node [v] in [lam]. *)
Definition L_hat g dv lam (v u : nat) : R :=
(2 * ((if decide (v = u) then 1 else 0) - norm_adj g dv v u) / nth v lam 0
 - (if decide (v = u) then 1 else 0))%R.

(** The docstring: Z^0 = H, Z^1 = L_hat H, Z^k = 2 L_hat Z^(k-1) - Z^(k-2). *)
Fixpoint Z_doc g dv lam (m : nat) (H : mat R) (i : nat) : mat R :=
match i with
| 0 => H
| S j =>
    match j with
    | 0 => mat_apply (num_nodes g) m (L_hat g dv lam) H
    | S k =>
        mat_mat Rminus
          (t_map (Rmult 2)
             (mat_apply (num_nodes g) m (L_hat g dv lam) (Z_doc g dv lam m H j)))
          (Z_doc g dv lam m H k)
    end
end.

Lemma nth_map_lt (f : R → R) (l : list R) (v : nat) :
v < length l → nth v (map f l) 0%R = f (nth v l 0%R).
Proof.
intros Hv. apply lookup_lt_is_Some_2 in Hv as [a Ha].
rewrite (nth_lookup_Some _ _ _ _ Ha). apply nth_lookup_Some.
by rewrite list_lookup_fmap, Ha.
Qed.

Section Docstring.
Variables (g : Graph) (m : nat) (dv lam : list R).
Hypothesis Hwf : wf_graph g = true.
Hypothesis Ld : length dv = num_nodes g.
Hypothesis Ll : length lam = num_nodes g.

(** Line 104: re_norm = 2. / lambda_max, node by node. *)
Let rv : list R := map (fdiv (of_nat 2)) lam.

Lemma length_rv : length rv = num_nodes g.
Proof using Ll. unfold rv. by rewrite length_map. Qed.

Lemma entry_lap (x : mat R) v j :
shape (num_nodes g) m x → v < num_nodes g → j < m →
entry (lap g dv x) v j
= Rsum (map (λ u, norm_adj g dv v u * entry x u j)%R (seq 0 (num_nodes g))).
Proof using Hwf Ld.
intros Hx Hv Hj. rewrite (lap_is_norm_adj g m dv x Hwf Hx Ld).
by apply entry_mat_apply.
Qed.

Lemma L_hat_entry (x : mat R) v j :
shape (num_nodes g) m x → v < num_nodes g → j < m →
entry (mat_apply (num_nodes g) m (L_hat g dv lam) x) v j
= (2 / nth v lam 0 * (entry x v j - entry (lap g dv x) v j) - entry x v j)%R.
Proof using Hwf Ld.
intros Hx Hv Hj. rewrite entry_mat_apply, entry_lap by done.
rewrite (Rsum_ext _
  (λ u, (if decide (u = v) then (2 / nth v lam 0 - 1) * entry x v j else 0)
        + (- (2 / nth v lam 0)) * (norm_adj g dv v u * entry x u j))%R).
- rewrite Rsum_plus, Rsum_single, Rsum_scale by done. unfold Rdiv. ring.
- intros u _. unfold L_hat.
  destruct (decide (v = u)) as [->|Hne].
  + rewrite decide_True by done. unfold Rdiv. ring.
  + rewrite decide_False by congruence. unfold Rdiv. ring.
Qed.

Lemma X_1_of_is_L_hat (x : mat R) :
shape (num_nodes g) m x →
X_1_of g dv rv x = mat_apply (num_nodes g) m (L_hat g dv lam) x.
Proof using Hwf Ld Ll.
intros Hx.
apply (mat_ext (num_nodes g) m).
- apply shape_X_1_of; try done. apply length_rv.
- apply shape_mat_apply.
- intros v j Hv Hj. rewrite L_hat_entry by done. unfold X_1_of.
  rewrite (entry_mat_mat _ (num_nodes g) m); try done; cycle 1.
  { apply shape_col_mat; [rewrite length_map; apply length_rv|].
    by apply shape_lap. }
  { apply shape_mat_col; [done|]. rewrite length_map. apply length_rv. }
  rewrite (entry_col_mat _ (num_nodes g) m), (entry_mat_col _ (num_nodes g) m);
    try done; try (rewrite length_map; apply length_rv);
    try (by apply shape_lap).
  rewrite !nth_map_lt by (rewrite length_rv; lia).
  unfold rv. rewrite nth_map_lt by lia.
  change (fmul (F:=R)) with Rmult. change (fadd (F:=R)) with Rplus.
  change (fsub (F:=R)) with Rminus. change (fopp (F:=R)) with Ropp.
  change (fdiv (F:=R)) with Rdiv. change (of_nat (F:=R)) with INR.
  simpl INR. unfold Rdiv. ring.
Qed.

Lemma X_i_of_is_L_hat (x1 x0 : mat R) :
shape (num_nodes g) m x1 → shape (num_nodes g) m x0 →
X_i_of g dv rv x1 x0
= mat_mat Rminus
    (t_map (Rmult 2) (mat_apply (num_nodes g) m (L_hat g dv lam) x1)) x0.
Proof using Hwf Ld Ll.
intros H1 H0.
assert (Hl : shape (num_nodes g) m (lap g dv x1)) by (by apply shape_lap).
assert (Ha : shape (num_nodes g) m
               (col_mat fmul (map (fmul (fopp (of_nat 2))) rv) (lap g dv x1))).
{ apply shape_col_mat; [rewrite length_map; apply length_rv|done]. }
assert (Hb : shape (num_nodes g) m
               (mat_col fmul (s_mul_r (of_nat 2) x1)
                  (map (λ r, fsub r (of_nat 1)) rv))).
{ apply shape_mat_col; [by apply shape_t_map|].
  rewrite length_map. apply length_rv. }
apply (mat_ext (num_nodes g) m).
- apply shape_X_i_of; try done. apply length_rv.
- apply shape_mat_mat; [|done]. apply shape_t_map, shape_mat_apply.
- intros v j Hv Hj. unfold X_i_of.
  rewrite !(entry_mat_mat _ (num_nodes g) m); try done; cycle 1.
  { apply shape_t_map, shape_mat_apply. }
  { by apply shape_mat_mat. }
  rewrite (entry_t_map _ (num_nodes g) m) by (done || apply shape_mat_apply).
  rewrite L_hat_entry by done.
  rewrite (entry_col_mat _ (num_nodes g) m), (entry_mat_col _ (num_nodes g) m);
    try done; try (rewrite length_map; apply length_rv);
    try (by apply shape_t_map).
  unfold s_mul_r. rewrite (entry_t_map _ (num_nodes g) m) by done.
  rewrite !nth_map_lt by (rewrite length_rv; lia).
  unfold rv. rewrite nth_map_lt by lia.
  change (fmul (F:=R)) with Rmult. change (fadd (F:=R)) with Rplus.
  change (fsub (F:=R)) with Rminus. change (fopp (F:=R)) with Ropp.
  change (fdiv (F:=R)) with Rdiv. change (of_nat (F:=R)) with INR.
  simpl INR. unfold Rdiv. ring.
Qed.

Lemma X_spec_is_Z_doc (feat : mat R) (i : nat) :
shape (num_nodes g) m feat →
(X_spec g dv rv feat i = Z_doc g dv lam m feat i
 ∧ shape (num_nodes g) m (X_spec g dv rv feat i))
∧ (X_spec g dv rv feat (S i) = Z_doc g dv lam m feat (S i)
   ∧ shape (num_nodes g) m (X_spec g dv rv feat (S i))).
Proof using Hwf Ld Ll.
intros Hf. induction i as [|i [[E0 S0] [E1 S1]]].
- split; [done|]. cbn [X_spec Z_doc]. rewrite <- X_1_of_spec. split.
  + by apply X_1_of_is_L_hat.
  + apply shape_X_1_of; try done. apply length_rv.
- split; [done|].
  change (X_spec g dv rv feat (S (S i)))
    with (X_i_spec rv (lap g dv (X_spec g dv rv feat (S i)))
            (X_spec g dv rv feat (S i)) (X_spec g dv rv feat i)).
  rewrite <- X_i_of_spec. split.
  + rewrite X_i_of_is_L_hat by done.
    change (Z_doc g dv lam m feat (S (S i)))
      with (mat_mat Rminus
              (t_map (Rmult 2)
                 (mat_apply (num_nodes g) m (L_hat g dv lam)
                    (Z_doc g dv lam m feat (S i))))
              (Z_doc g dv lam m feat i)).
    by rewrite <- E1, <- E0.
  + apply shape_X_i_of; try done. apply length_rv.
Qed.
End Docstring.

(** X1: The loop computes the basis of the docstring: with [re_norm] equal to
    2 / lambda_max node by node, what it concatenates is Z^0 = feat,
    Z^1 = L_hat feat and Z^i = 2 L_hat Z^(i-1) - Z^(i-2), for the matrix
    L_hat = 2 (I - D^-1/2 A D^-1/2) / lambda_max - I. *)
Theorem chebyshev_basis_is_docstring g (m k : nat) dv lam (feat : mat R) w :
wf_graph g = true →
is_shape (num_nodes g) m feat = true →
length dv = num_nodes g →
length lam = num_nodes g →
chebyshev_basis k g (unsqueeze_last dv)
  (s_div_l (of_nat 2) (unsqueeze_last lam)) feat w
= (Ok (hcat_rows (num_nodes g)
         (map (Z_doc g dv lam m feat) (seq 0 (Nat.max k 1)))),
   after_laps (k - 1) w).
Proof.
intros Hwf Hf%is_shape_spec Ld Ll.
unfold s_div_l. rewrite t_map_unsqueeze.
assert (Lr : length (map (fdiv (of_nat 2)) lam) = num_nodes g)
  by (by rewrite length_map).
rewrite (chebyshev_basis_run g m dv _ Hwf Ld Lr k feat w Hf).
rewrite cheb_terms_spec. do 3 f_equal.
apply map_ext. intros i.
by destruct (X_spec_is_Z_doc g m dv lam Hwf Ld Ll feat i Hf) as [[-> _] _].
Qed.
End Operator.

(** ** The default of [lambda_max] and of [activation] *)
Section Defaults.
Context {F : Type} `{!Scalar F}.
Implicit Types (g : Graph) (w : World F) (self : ChebConv F).

Lemma forward_body_estimate self env g l w :
laplacian_lambda_max env g = Some l →
forward_body self env g LNone w
= forward_body self env g (LList l) (emit EvEstimate w).
Proof.
intros Hl. unfold forward_body, re_norm_of, default_lambda_max.
unfold mbind, M_bind, bind, gets, modify. rewrite Hl. reflexivity.
Qed.

(** X10: As the docstring of [forward] says, leaving [lambda_max] out is
    passing the list that [laplacian_lambda_max] returns: when the
    estimator returns, both calls give the same result, on every argument. *)
Theorem none_is_the_estimate self env g l w :
laplacian_lambda_max env g = Some l →
(forward self env g LNone w).1 = (forward self env g (LList l) w).1.
Proof.
intros Hl.
assert (forward self env g LNone w
        = forward self env g (LList l) (emit EvEstimate w)) as ->.
{ unfold forward, local_scope. by rewrite (forward_body_estimate self env g l w Hl). }
by apply oblivious_forward.
Qed.

(** The value of a call on a layer with an activation, from that of the
    layer without. *)
Lemma forward_activation_split k i o (act : F → F) env g
  (lambda_max : lambda_arg F) w :
(forward (mkChebConv k i o (Some act)) env g lambda_max w).1
= match (forward (mkChebConv k i o None) env g lambda_max w).1 with
  | Ok y => Ok (t_map act y)
  | Raise e => Raise e
  end.
Proof.
unfold forward, forward_body, local_scope, mbind, M_bind, bind, gets, lift, ret.
cbn [_k activation].
destruct (re_norm_of env g lambda_max w) as [[r|e] w1]; [|done].
destruct (chebyshev_basis k g (D_invsqrt_of g) r (feat_tensor w) w1)
  as [[Xt|e] w2]; [|done].
by destruct (linear (linear_weight w2) (linear_bias w2) Xt).
Qed.
End Defaults.

(** X11: With the default activation, [F.relu], no entry of what a call
    returns is negative. *)
Theorem default_activation_nonnegative k i o env g
  (lambda_max : lambda_arg R) (w : World R) :
match (forward (mkChebConv k i o (Some F_relu)) env g lambda_max w).1 with
| Ok out => Forall (Forall (λ e, (0 <= e)%R)) out
| Raise _ => True
end.
Proof.
rewrite forward_activation_split.
destruct (forward (mkChebConv k i o None) env g lambda_max w).1 as [y|e];
  [|done].
unfold t_map. apply Forall_map, Forall_forall. intros r _. simpl.
apply Forall_map, Forall_forall. intros a _. simpl.
unfold F_relu. simpl. apply Rmax_r.
Qed.

(** ** The basis is linear in [feat] *)
Section Linearity.
Variables (g : Graph) (m : nat) (dv rv : list R) (a b : R).
Hypothesis Hwf : wf_graph g = true.
Hypothesis Ld : length dv = num_nodes g.
Hypothesis Lr : length rv = num_nodes g.

(** a * x + b * y, as PyTorch computes it on two tensors of one shape. *)
Definition lin_comb (a : R) (x : mat R) (b : R) (y : mat R) : mat R :=
mat_mat Rplus (t_map (Rmult a) x) (t_map (Rmult b) y).

Lemma shape_lin_comb n (x y : mat R) :
shape n m x → shape n m y → shape n m (lin_comb a x b y).
Proof.
clear Hwf Ld Lr. intros Hx Hy. apply shape_mat_mat; by apply shape_t_map.
Qed.

Lemma entry_lin_comb n (x y : mat R) v j :
shape n m x → shape n m y → v < n → j < m →
entry (lin_comb a x b y) v j = (a * entry x v j + b * entry y v j)%R.
Proof.
clear Hwf Ld Lr.
intros Hx Hy Hv Hj. unfold lin_comb.
rewrite (entry_mat_mat _ n m) by (done || by apply shape_t_map).
by rewrite !(entry_t_map _ n m).
Qed.

Lemma lap_lin (x y : mat R) :
shape (num_nodes g) m x → shape (num_nodes g) m y →
lap g dv (lin_comb a x b y) = lin_comb a (lap g dv x) b (lap g dv y).
Proof using Hwf Ld.
clear Lr. intros Hx Hy.
apply (mat_ext (num_nodes g) m).
- apply shape_lap; [done| |done]. by apply shape_lin_comb.
- apply shape_lin_comb; by apply shape_lap.
- intros v j Hv Hj.
  rewrite (entry_lin_comb (num_nodes g)) by (done || by apply shape_lap).
  rewrite !(entry_lap g m dv Hwf Ld) by (done || by apply shape_lin_comb).
  rewrite <- !Rsum_scale, <- Rsum_plus. apply Rsum_ext. intros u Hu.
  apply elem_of_seq in Hu.
  rewrite (entry_lin_comb (num_nodes g)) by (done || lia). ring.
Qed.

Lemma entry_X_1_of (x : mat R) v j :
shape (num_nodes g) m x → v < num_nodes g → j < m →
entry (X_1_of g dv rv x) v j
= (- nth v rv 0 * entry (lap g dv x) v j + entry x v j * (nth v rv 0 - 1))%R.
Proof using Hwf Ld Lr.
intros Hx Hv Hj. unfold X_1_of.
rewrite (entry_mat_mat _ (num_nodes g) m); try done; cycle 1.
{ apply shape_col_mat; [by rewrite length_map|]. by apply shape_lap. }
{ apply shape_mat_col; [done|]. by rewrite length_map. }
rewrite (entry_col_mat _ (num_nodes g) m), (entry_mat_col _ (num_nodes g) m);
  try done; try (by rewrite length_map); try (by apply shape_lap).
rewrite !nth_map_lt by lia. done.
Qed.

Lemma entry_X_i_of (x1 x0 : mat R) v j :
shape (num_nodes g) m x1 → shape (num_nodes g) m x0 →
v < num_nodes g → j < m →
entry (X_i_of g dv rv x1 x0) v j
= (- 2 * nth v rv 0 * entry (lap g dv x1) v j
   + entry x1 v j * 2 * (nth v rv 0 - 1) - entry x0 v j)%R.
Proof using Hwf Ld Lr.
intros H1 H0 Hv Hj. unfold X_i_of.
assert (Hl : shape (num_nodes g) m (lap g dv x1)) by (by apply shape_lap).
rewrite !(entry_mat_mat _ (num_nodes g) m); try done; cycle 1.
{ apply shape_col_mat; [by rewrite length_map|done]. }
{ apply shape_mat_col; [by apply shape_t_map|by rewrite length_map]. }
{ apply shape_mat_mat.
  - apply shape_col_mat; [by rewrite length_map|done].
  - apply shape_mat_col; [by apply shape_t_map|by rewrite length_map]. }
rewrite (entry_col_mat _ (num_nodes g) m), (entry_mat_col _ (num_nodes g) m);
  try done; try (by rewrite length_map); try (by apply shape_t_map).
unfold s_mul_r. rewrite (entry_t_map _ (num_nodes g) m) by done.
rewrite !nth_map_lt by lia.
change (fmul (F:=R)) with Rmult. change (fadd (F:=R)) with Rplus.
change (fsub (F:=R)) with Rminus. change (fopp (F:=R)) with Ropp.
change (of_nat (F:=R)) with INR. simpl INR. ring.
Qed.

Lemma X_1_of_lin (x y : mat R) :
shape (num_nodes g) m x → shape (num_nodes g) m y →
X_1_of g dv rv (lin_comb a x b y)
= lin_comb a (X_1_of g dv rv x) b (X_1_of g dv rv y).
Proof using Hwf Ld Lr.
intros Hx Hy.
assert (Hxy := shape_lin_comb _ x y Hx Hy).
apply (mat_ext (num_nodes g) m).
- by apply shape_X_1_of.
- apply shape_lin_comb; by apply shape_X_1_of.
- intros v j Hv Hj.
  rewrite (entry_lin_comb (num_nodes g)) by (done || by apply shape_X_1_of).
  rewrite !entry_X_1_of by done. rewrite lap_lin by done.
  rewrite !(entry_lin_comb (num_nodes g)) by (done || by apply shape_lap).
  ring.
Qed.

Lemma X_i_of_lin (x1 x0 y1 y0 : mat R) :
shape (num_nodes g) m x1 → shape (num_nodes g) m x0 →
shape (num_nodes g) m y1 → shape (num_nodes g) m y0 →
X_i_of g dv rv (lin_comb a x1 b y1) (lin_comb a x0 b y0)
= lin_comb a (X_i_of g dv rv x1 x0) b (X_i_of g dv rv y1 y0).
Proof using Hwf Ld Lr.
intros Hx1 Hx0 Hy1 Hy0.
assert (H1 := shape_lin_comb _ x1 y1 Hx1 Hy1).
assert (H0 := shape_lin_comb _ x0 y0 Hx0 Hy0).
apply (mat_ext (num_nodes g) m).
- by apply shape_X_i_of.
- apply shape_lin_comb; by apply shape_X_i_of.
- intros v j Hv Hj.
  rewrite (entry_lin_comb (num_nodes g)) by (done || by apply shape_X_i_of).
  rewrite !entry_X_i_of by done. rewrite lap_lin by done.
  rewrite !(entry_lin_comb (num_nodes g)) by (done || by apply shape_lap).
  ring.
Qed.

Lemma cheb_tail_lin n (x1 x0 y1 y0 : mat R) :
shape (num_nodes g) m x1 → shape (num_nodes g) m x0 →
shape (num_nodes g) m y1 → shape (num_nodes g) m y0 →
cheb_tail g dv rv n (lin_comb a x1 b y1) (lin_comb a x0 b y0)
= zip_with (λ X Y, lin_comb a X b Y)
    (cheb_tail g dv rv n x1 x0) (cheb_tail g dv rv n y1 y0).
Proof using Hwf Ld Lr.
revert x1 x0 y1 y0.
induction n as [|n IH]; intros x1 x0 y1 y0 Hx1 Hx0 Hy1 Hy0; [done|].
cbn [cheb_tail zip_with]. rewrite X_i_of_lin by done. f_equal.
apply IH; try done; by apply shape_X_i_of.
Qed.

Lemma cheb_terms_lin k (x y : mat R) :
shape (num_nodes g) m x → shape (num_nodes g) m y →
cheb_terms k g dv rv (lin_comb a x b y)
= zip_with (λ X Y, lin_comb a X b Y)
    (cheb_terms k g dv rv x) (cheb_terms k g dv rv y).
Proof using Hwf Ld Lr.
intros Hx Hy. unfold cheb_terms. destruct (1 <? k); [|done].
cbn [zip_with]. rewrite X_1_of_lin by done. do 2 f_equal.
apply cheb_tail_lin; try done; by apply shape_X_1_of.
Qed.

Lemma row_lin_comb n (x y : mat R) v :
shape n m x → shape n m y → v < n →
nth v (lin_comb a x b y) []
= zip_with Rplus (map (Rmult a) (nth v x [])) (map (Rmult b) (nth v y [])).
Proof.
clear Hwf Ld Lr.
intros [Lx Hx] [Ly Hy] Hv.
assert (is_Some (x !! v)) as [rx Hrx] by (apply lookup_lt_is_Some_2; lia).
assert (is_Some (y !! v)) as [ry Hry] by (apply lookup_lt_is_Some_2; lia).
rewrite (nth_lookup_Some _ _ _ _ Hrx), (nth_lookup_Some _ _ _ _ Hry).
apply nth_lookup_Some. unfold lin_comb, mat_mat, t_map.
apply lookup_zip_with_Some. eexists _, _. split; [done|].
split; apply list_lookup_fmap_Some; eauto.
Qed.

Lemma hcat_row_lin n (ts1 ts2 : list (mat R)) v :
Forall (shape n m) ts1 → Forall (shape n m) ts2 →
length ts1 = length ts2 → v < n →
concat (map (λ X, nth v X []) (zip_with (λ X Y, lin_comb a X b Y) ts1 ts2))
= zip_with Rplus (map (Rmult a) (concat (map (λ X, nth v X []) ts1)))
                 (map (Rmult b) (concat (map (λ X, nth v X []) ts2))).
Proof.
clear Hwf Ld Lr.
intros H1. revert ts2. induction H1 as [|X ts1 HX _ IH];
  intros [|Y ts2] H2 L Hv; simplify_eq/=; [done|].
apply Forall_cons in H2 as [HY H2].
rewrite (row_lin_comb n X Y v HX HY Hv), !map_app, zip_with_app.
- f_equal. by apply IH.
- rewrite !length_map.
  by rewrite (shape_row n m X v HX Hv), (shape_row n m Y v HY Hv).
Qed.

Lemma hcat_rows_lin (ts1 ts2 : list (mat R)) :
Forall (shape (num_nodes g) m) ts1 → Forall (shape (num_nodes g) m) ts2 →
length ts1 = length ts2 →
hcat_rows (num_nodes g) (zip_with (λ X Y, lin_comb a X b Y) ts1 ts2)
= lin_comb a (hcat_rows (num_nodes g) ts1) b (hcat_rows (num_nodes g) ts2).
Proof.
clear Hwf Ld Lr.
intros H1 H2 L. unfold hcat_rows, lin_comb, mat_mat, t_map.
rewrite !map_map, zip_with_fmap_l, zip_with_fmap_r, zip_with_diag.
apply map_ext_in. intros v Hv. apply in_seq in Hv.
apply (hcat_row_lin (num_nodes g)); try done. lia.
Qed.
End Linearity.

(** X2: The Chebyshev basis is linear in [feat]: the basis that lines 107-122
    build for a * x + b * y is a times the basis for x plus b times the
    basis for y. *)
Theorem chebyshev_basis_linear g (m k : nat) dv rv (a b : R) (x y : mat R) w :
wf_graph g = true →
is_shape (num_nodes g) m x = true →
is_shape (num_nodes g) m y = true →
length dv = num_nodes g →
length rv = num_nodes g →
∃ Bx By,
  chebyshev_basis k g (unsqueeze_last dv) (unsqueeze_last rv) x w
    = (Ok Bx, after_laps (k - 1) w)
  ∧ chebyshev_basis k g (unsqueeze_last dv) (unsqueeze_last rv) y w
    = (Ok By, after_laps (k - 1) w)
  ∧ chebyshev_basis k g (unsqueeze_last dv) (unsqueeze_last rv)
      (lin_comb a x b y) w
    = (Ok (lin_comb a Bx b By), after_laps (k - 1) w).
Proof.
intros Hwf Hx%is_shape_spec Hy%is_shape_spec Ld Lr.
eexists _, _.
split; [exact (chebyshev_basis_run g m dv rv Hwf Ld Lr k x w Hx)|].
split; [exact (chebyshev_basis_run g m dv rv Hwf Ld Lr k y w Hy)|].
rewrite (chebyshev_basis_run g m dv rv Hwf Ld Lr k _ w
           (shape_lin_comb m a b _ x y Hx Hy)).
rewrite (cheb_terms_lin g m dv rv a b Hwf Ld Lr k x y Hx Hy).
rewrite (hcat_rows_lin g m a b); [done| | |].
- by apply shape_cheb_terms.
- by apply shape_cheb_terms.
- unfold cheb_terms. destruct (1 <? k); simpl; [|done].
  by rewrite !length_cheb_tail.
Qed.

(** *** The further theorems at concrete calls *)

Definition world5 : World float :=
mkWorld ∅ [[1]; [2]; [3]; [4]; [5]]%float [[2]]%float None [].

Definition world3_wide : World float :=
mkWorld ∅ [[1; 1]; [2; 2]; [3; 3]]%float
        [[1; 0; 0]; [0; 1; 0]; [0; 0; 1]]%float None [].

Definition estimating_env : Env float := mkEnv (λ _, Some [2%float]) (λ _, 0%float).

Lemma fresh_layer_accepts_feat_witness :
∃ y, (forward (init 1 3 3 None true (λ _ _, 1%float) (λ _, 0%float)).1
        (raising_env (λ _, 0%float)) cycle3 (LList [2%float])
        (world_of (init 1 3 3 None true (λ _ _, 1%float) (λ _, 0%float)).2
           ∅ [[1]; [2]; [3]]%float)).1
     = Ok y
   ∧ is_shape 3 3 y = true.
Proof.
apply (fresh_layer_accepts_feat 1 3 3 None true (λ _ _, 1%float) (λ _, 0%float)
         (raising_env (λ _, 0%float)) cycle3 (LList [2%float]) [2%float] ∅
         [[1]; [2]; [3]]%float); [lia|lia|reflexivity..].
Defined.

Lemma order_one_takes_any_rows_witness :
∃ y, (forward layer1 (raising_env (λ _, 0%float)) cycle3 (LList [2%float])
        world5).1 = Ok y
   ∧ is_shape 5 (_out_feats layer1) y = true.
Proof.
apply (order_one_takes_any_rows layer1 (raising_env (λ _, 0%float)) cycle3
         (LList [2%float]) [2%float] 5 world5); reflexivity.
Defined.

Lemma wrong_feature_width_raises_witness :
forward layer3 (raising_env (λ _, 0%float)) cycle3 (LList [2%float]) world3_wide
= (Raise ShapeError, world_after layer3 (LList [2%float]) world3_wide).
Proof.
apply (wrong_feature_width_raises layer3 (raising_env (λ _, 0%float)) cycle3
         (LList [2%float]) [2%float] 2 3 world3_wide);
  first [reflexivity | simpl; lia].
Defined.

Lemma forward_message_passing_rounds_witness :
trace (forward layer3 (raising_env (λ _, 0%float)) cycle3 (LList [2%float])
         world3).2
= trace world3 ++ lambda_events (LList [2%float])
    ++ replicate (_k layer3 - 1) EvUpdateAll.
Proof.
apply (forward_message_passing_rounds layer3 (raising_env (λ _, 0%float)) cycle3
         (LList [2%float]) [2%float] 1 world3); reflexivity.
Defined.

Lemma wrong_row_count_raises_witness :
is_ok (forward layer2 (raising_env (λ _, 0%float)) cycle3 (LList [2%float])
         world4).1 = false.
Proof.
apply (wrong_row_count_raises layer2 (raising_env (λ _, 0%float)) cycle3
         (LList [2%float]) world4); simpl; lia.
Defined.

Lemma none_is_the_estimate_witness :
(forward layer3 estimating_env cycle3 LNone world3).1
= (forward layer3 estimating_env cycle3 (LList [2%float]) world3).1.
Proof.
exact (none_is_the_estimate layer3 estimating_env cycle3 [2%float] world3 eq_refl).
Defined.

Lemma chebyshev_basis_is_docstring_witness :
chebyshev_basis 3 cycle3 (unsqueeze_last [1; 1; 1]%R)
  (s_div_l (of_nat 2) (unsqueeze_last [2; 2; 2]%R)) (feat_tensor world3R) world3R
= (Ok (hcat_rows 3 (map (Z_doc cycle3 [1; 1; 1]%R [2; 2; 2]%R 1
                           (feat_tensor world3R)) (seq 0 3))),
   after_laps 2 world3R).
Proof.
exact (chebyshev_basis_is_docstring cycle3 1 3 [1; 1; 1]%R [2; 2; 2]%R
         (feat_tensor world3R) world3R eq_refl eq_refl eq_refl eq_refl).
Defined.

Lemma chebyshev_basis_linear_witness :
∃ Bx By,
  chebyshev_basis 3 cycle3 (unsqueeze_last [1; 1; 1]%R)
    (unsqueeze_last [1; 1; 1]%R) [[1]; [2]; [3]]%R world3R
  = (Ok Bx, after_laps 2 world3R)
  ∧ chebyshev_basis 3 cycle3 (unsqueeze_last [1; 1; 1]%R)
      (unsqueeze_last [1; 1; 1]%R) [[0]; [1]; [0]]%R world3R
    = (Ok By, after_laps 2 world3R)
  ∧ chebyshev_basis 3 cycle3 (unsqueeze_last [1; 1; 1]%R)
      (unsqueeze_last [1; 1; 1]%R)
      (lin_comb 2 [[1]; [2]; [3]]%R 3 [[0]; [1]; [0]]%R) world3R
    = (Ok (lin_comb 2 Bx 3 By), after_laps 2 world3R).
Proof.
exact (chebyshev_basis_linear cycle3 1 3 [1; 1; 1]%R [1; 1; 1]%R 2 3
         [[1]; [2]; [3]]%R [[0]; [1]; [0]]%R world3R
         eq_refl eq_refl eq_refl eq_refl eq_refl).
Defined.
